(** * stairs: weighted random selection through a cumulative array

    A shallow embedding of [stairs.go].  The package turns a slice of
    (weight, index) pairs into a closure that draws indices at random: the
    slice is sorted by weight, the weights are replaced by their running
    sums, and every draw binary-searches the running sums for a random
    number.  There is an [int] variant and a [float64] variant.

    Conventions of the embedding.
    - Go's [int] is taken at its 64-bit width: a [Z] kept in range by [wrap]
      after every addition.
    - [float64] is Rocq's primitive binary64 type, so that [NaN], the
      infinities and rounding are the machine's.
    - A slice is a list; [s[i]] is a lookup that may fail, and a failed
      lookup is Go's index-out-of-range panic.
    - The endless [for] of the search is a function with fuel; the draw
      closure runs it with [length s] units, and the theorems show that
      this is always enough.
    - [sort.Sort] belongs to Go's library, not to the package: the integer
      build takes any algorithm that meets its contract, and the small
      slices that are evaluated here run the library's insertion sort,
      which is what [sort.Sort] does below thirteen elements. *)

From Stdlib Require Import ZArith Lia Floats.
From stdpp Require Import base option list sets sorting.

Local Open Scope Z_scope.

(** ** Go's [int] *)

Definition intSize : Z := 64.
Definition MaxInt : Z := 2 ^ (intSize - 1) - 1.
Definition MinInt : Z := - 2 ^ (intSize - 1).

(** Two's complement wrap-around of an arithmetic result. *)
Definition wrap (z : Z) : Z :=
  (z + 2 ^ (intSize - 1)) mod 2 ^ intSize - 2 ^ (intSize - 1).

Definition is_int (z : Z) : Prop := MinInt <= z <= MaxInt.

(** ** Slices *)

(** [s[i]] for an [int] subscript: [None] stands for the run-time panic. *)
Definition at_ {A} (s : list A) (i : Z) : option A :=
  if i <? 0 then None else s !! Z.to_nat i.

(** [len(s)] *)
Definition len {A} (s : list A) : Z := Z.of_nat (length s).

(** The two [Swap] methods have the same body: [temp := s[i]; s[i] = s[j];
    s[j] = temp].  The sort only passes subscripts of the slice; for others,
    where Go would panic, the slice is left as it is. *)
Definition swap_at {A} (s : list A) (i j : nat) : list A :=
  match s !! i, s !! j with
  | Some temp, Some sj => <[j := temp]> (<[i := sj]> s)
  | _, _ => s
  end.

(** ** The library's insertion sort, over the [sort.Interface] methods

    [for i := a + 1; i < b; i++ {
       for j := i; j > a && data.Less(j, j-1); j-- { data.Swap(j, j-1) } }] *)
Section InsertionSort.
Context {A : Type}.
Variable Less : list A -> nat -> nat -> bool.
Variable Swap : list A -> nat -> nat -> list A.

(** The inner loop, entered at [j]. *)
Fixpoint sift (j : nat) (s : list A) : list A :=
  match j with
  | O => s
  | S j' => if Less s j j' then sift j' (Swap s j j') else s
  end.

(** The outer loop, entered at [i] with [n] iterations to go. *)
Fixpoint insertion_loop (n i : nat) (s : list A) : list A :=
  match n with
  | O => s
  | S n' => insertion_loop n' (S i) (sift i s)
  end.

Definition insertionSort (s : list A) : list A :=
  insertion_loop (length s - 1) 1 s.

End InsertionSort.

(** ** The integer variant *)

Record WeightedItem := mkItem { Weight : Z; Index : Z }.

Abbreviation WeightedItems := (list WeightedItem).

Definition Len (s : WeightedItems) : Z := len s.

(** [s[i].Weight < s[j].Weight], for subscripts of the slice. *)
Definition Less (s : WeightedItems) (i j : nat) : bool :=
  match s !! i, s !! j with
  | Some a, Some b => Weight a <? Weight b
  | _, _ => false
  end.

Definition Swap (s : WeightedItems) (i j : nat) : WeightedItems := swap_at s i j.

Inductive error := tooShortErr | zeroWeightErr.

(** What a call of the draw closure does. *)
Inductive outcome :=
| Return (index : Z)
| Panic
| OutOfFuel.

(** The order [sort.Sort] leaves the slice in: no later element is [Less]
    than an earlier one. *)
Definition weight_le (a b : WeightedItem) : Prop := Weight a <= Weight b.

(** The contract of [sort.Sort(s)]: the slice is rearranged (the algorithm
    only calls [Swap]) and ends in ascending order of [Less]. *)
Class SortAlgorithm := {
  sort_Sort : WeightedItems -> WeightedItems;
  sort_Sort_perm : forall s, sort_Sort s ≡ₚ s;
  sort_Sort_sorted : forall s, StronglySorted weight_le (sort_Sort s)
}.

(** [s[i].Weight += s[i-1].Weight] *)
Definition add_prev (cur prev : WeightedItem) : WeightedItem :=
  {| Weight := wrap (Weight cur + Weight prev); Index := Index cur |}.

(** The accumulation loop [for i := 1; i < len(s); i++], entered at [i] with
    [n] iterations to go.  The result is the slice as the loop leaves it and
    the error it returned, if any; [None] is an index panic. *)
Fixpoint accumulate (n i : nat) (s : WeightedItems)
  : option (WeightedItems * option error) :=
  match n with
  | O => Some (s, None)
  | S n' =>
      cur ← s !! i;
      if Weight cur <=? 0 then Some (s, Some zeroWeightErr)
      else
        prev ← s !! (i - 1)%nat;
        accumulate n' (S i) (<[i := add_prev cur prev]> s)
  end.

(** [r.Intn(n)]: panics unless [n > 0]; otherwise a number of [[0, n)] that
    the generator's state determines, here the residue of the raw value
    [raw] that the generator produces on this call. *)
Definition Intn (n raw : Z) : option Z :=
  if n <=? 0 then None else Some (raw mod n).

(** The [for { ... }] of the integer [searchCDF]. *)
Fixpoint search_loop (fuel : nat) (s : WeightedItems) (num left right : Z)
  : outcome :=
  match fuel with
  | O => OutOfFuel
  | S fuel' =>
      let m := (left + right) ÷ 2 in
      match at_ s m with
      | None => Panic
      | Some sm =>
          let valm := Weight sm in
          if valm =? num then Return (Index sm)
          else if valm <? num then
            if m =? len s - 1 then Return (Index sm)
            else
              match at_ s (m + 1) with
              | None => Panic
              | Some sn =>
                  if Weight sn >? num then Return (Index sn)
                  else search_loop fuel' s num (m + 1) right
              end
          else
            if m =? 0 then Return (Index sm)
            else
              match at_ s (m - 1) with
              | None => Panic
              | Some sp =>
                  if Weight sp <=? num then Return (Index sm)
                  else search_loop fuel' s num left (m - 1)
              end
      end
  end.

(** The search for an already drawn [num]: [right := len(s) - 1; left := 0]. *)
Definition search (s : WeightedItems) (num : Z) : outcome :=
  search_loop (length s) s num 0 (len s - 1).

(** [num := r.Intn(s[len(s)-1].Weight) + 1] *)
Definition draw_num (s : WeightedItems) (raw : Z) : option Z :=
  lst ← at_ s (len s - 1);
  k ← Intn (Weight lst) raw;
  Some (wrap (k + 1)).

(** The closure [searchCDF] over the slice [s]; [raw] is what the random
    generator hands to [Intn] on this call. *)
Definition searchCDF (s : WeightedItems) (raw : Z) : outcome :=
  match draw_num s raw with
  | None => Panic
  | Some num => search s num
  end.

(** What [BuildCDF] leaves behind: the caller's slice (sorted and
    overwritten in place), the returned closure and the returned error. *)
Record built := mkBuilt {
  slice : WeightedItems;
  draw : option (Z -> outcome);
  err : option error
}.

(** [func (s WeightedItems) BuildCDF() (func() int, error)]; [None] is a
    panic of the build itself. *)
Definition BuildCDF `{SortAlgorithm} (s : WeightedItems) : option built :=
  if len s <=? 0 then Some (mkBuilt s None (Some tooShortErr))
  else
    let s1 := sort_Sort s in
    first ← s1 !! 0%nat;
    if Weight first <=? 0 then Some (mkBuilt s1 None (Some zeroWeightErr))
    else
      r ← accumulate (length s1 - 1) 1 s1;
      match r with
      | (s2, Some e) => Some (mkBuilt s2 None (Some e))
      | (s2, None) => Some (mkBuilt s2 (Some (searchCDF s2)) None)
      end.

(** ** The floating-point variant *)

(** [const EPSILON = 0.00001], as the [float64] it is compared in. *)
Definition EPSILON : float := 0x1.4f8b588e368f1p-17%float.

Record WeightedItemFloat := mkItemFloat { WeightF : float; IndexF : Z }.

Abbreviation WeightedItemsFloat := (list WeightedItemFloat).

Definition LenF (s : WeightedItemsFloat) : Z := len s.

(** [s[i].Weight < s[j].Weight], for subscripts of the slice. *)
Definition LessF (s : WeightedItemsFloat) (i j : nat) : bool :=
  match s !! i, s !! j with
  | Some a, Some b => (WeightF a <? WeightF b)%float
  | _, _ => false
  end.

Definition SwapF (s : WeightedItemsFloat) (i j : nat) : WeightedItemsFloat :=
  swap_at s i j.

(** With [NaN] among the weights [Less] is no order, and all that
    [sort.Sort] promises is that it only swaps. *)
Class SortAlgorithmFloat := {
  sort_SortF : WeightedItemsFloat -> WeightedItemsFloat;
  sort_SortF_perm : forall s, sort_SortF s ≡ₚ s
}.

(** [s[i].Weight += s[i-1].Weight] *)
Definition add_prevF (cur prev : WeightedItemFloat) : WeightedItemFloat :=
  {| WeightF := (WeightF cur + WeightF prev)%float; IndexF := IndexF cur |}.

(** The accumulation loop of the floating-point build.  Its check reads
    [s[0]], not [s[i]]. *)
Fixpoint accumulateF (n i : nat) (s : WeightedItemsFloat)
  : option (WeightedItemsFloat * option error) :=
  match n with
  | O => Some (s, None)
  | S n' =>
      first ← s !! 0%nat;
      if (WeightF first <=? 0)%float then Some (s, Some zeroWeightErr)
      else
        cur ← s !! i;
        prev ← s !! (i - 1)%nat;
        accumulateF n' (S i) (<[i := add_prevF cur prev]> s)
  end.

(** The [for { ... }] of the floating-point [searchCDF]. *)
Fixpoint search_loopF (fuel : nat) (s : WeightedItemsFloat) (num : float)
  (left right : Z) : outcome :=
  match fuel with
  | O => OutOfFuel
  | S fuel' =>
      let m := (left + right) ÷ 2 in
      match at_ s m with
      | None => Panic
      | Some sm =>
          let valm := WeightF sm in
          if (abs (valm - num) <=? EPSILON)%float then Return (IndexF sm)
          else if (valm <? num)%float then
            if m =? len s - 1 then Return (IndexF sm)
            else
              match at_ s (m + 1) with
              | None => Panic
              | Some sn =>
                  if (num <? WeightF sn)%float then Return (IndexF sn)
                  else search_loopF fuel' s num (m + 1) right
              end
          else
            if m =? 0 then Return (IndexF sm)
            else
              match at_ s (m - 1) with
              | None => Panic
              | Some sp =>
                  if (WeightF sp <=? num)%float then Return (IndexF sm)
                  else search_loopF fuel' s num left (m - 1)
              end
      end
  end.

Definition searchF (s : WeightedItemsFloat) (num : float) : outcome :=
  search_loopF (length s) s num 0 (len s - 1).

(** [num := r.Float64()*(s[len(s)-1].Weight-1) + 1]; [u] is the value of
    [r.Float64()], a number of [[0, 1)]. *)
Definition draw_numF (s : WeightedItemsFloat) (u : float) : option float :=
  lst ← at_ s (len s - 1);
  Some (u * (WeightF lst - 1) + 1)%float.

Definition searchCDFFloat (s : WeightedItemsFloat) (u : float) : outcome :=
  match draw_numF s u with
  | None => Panic
  | Some num => searchF s num
  end.

Record builtF := mkBuiltF {
  sliceF : WeightedItemsFloat;
  drawF : option (float -> outcome);
  errF : option error
}.

(** [func (s WeightedItemsFloat) BuildCDF() (func() int, error)] *)
Definition BuildCDFFloat `{SortAlgorithmFloat} (s : WeightedItemsFloat)
  : option builtF :=
  if len s <=? 0 then Some (mkBuiltF s None (Some tooShortErr))
  else
    let s1 := sort_SortF s in
    first ← s1 !! 0%nat;
    if (WeightF first <=? 0)%float
    then Some (mkBuiltF s1 None (Some zeroWeightErr))
    else
      r ← accumulateF (length s1 - 1) 1 s1;
      match r with
      | (s2, Some e) => Some (mkBuiltF s2 None (Some e))
      | (s2, None) => Some (mkBuiltF s2 (Some (searchCDFFloat s2)) None)
      end.

(** ** The shape the two searches share

    The integer and the floating-point [searchCDF] are the same loop; they
    differ in the four tests that compare a stored weight with [num]:
    [hit] for the match, [below] for [valm < num], [above] for
    [s[m+1].Weight > num] and [atmost] for [s[m-1].Weight <= num]. *)
Section Skeleton.
Context {A : Type}.
Variables (hit below above atmost : A -> bool) (idx : A -> Z).

Fixpoint bsearch (fuel : nat) (s : list A) (left right : Z) : outcome :=
  match fuel with
  | O => OutOfFuel
  | S fuel' =>
      let m := (left + right) ÷ 2 in
      match at_ s m with
      | None => Panic
      | Some sm =>
          if hit sm then Return (idx sm)
          else if below sm then
            if m =? len s - 1 then Return (idx sm)
            else
              match at_ s (m + 1) with
              | None => Panic
              | Some sn =>
                  if above sn then Return (idx sn)
                  else bsearch fuel' s (m + 1) right
              end
          else
            if m =? 0 then Return (idx sm)
            else
              match at_ s (m - 1) with
              | None => Panic
              | Some sp =>
                  if atmost sp then Return (idx sm)
                  else bsearch fuel' s left (m - 1)
              end
      end
  end.

(** What the loop knows about its bounds: they are subscripts of the slice,
    [left] was last moved past a weight below [num], and [right] was last
    moved before a weight that is not at most [num]. *)
Definition bounds_ok (s : list A) (left right : Z) : Prop :=
  0 <= left <= right /\ right <= len s - 1 /\
  (left = 0 \/ exists a, at_ s (left - 1) = Some a /\ below a = true) /\
  (right = len s - 1 \/ exists a, at_ s right = Some a /\ atmost a = false).

End Skeleton.

(** ** Running sums, in closed form *)

(** The elements after [prev], each with the sum up to it. *)
Fixpoint cumul (prev : WeightedItem) (l : WeightedItems) : WeightedItems :=
  match l with
  | [] => []
  | cur :: l' => let c := add_prev cur prev in c :: cumul c l'
  end.

Fixpoint cumulF (prev : WeightedItemFloat) (l : WeightedItemsFloat)
  : WeightedItemsFloat :=
  match l with
  | [] => []
  | cur :: l' => let c := add_prevF cur prev in c :: cumulF c l'
  end.

(** The sum of a list of weights, without wrap-around. *)
Definition total (ws : list Z) : Z := foldr Z.add 0 ws.

(** ** Orders and positions in the integer slice *)

Definition weight_lt (a b : WeightedItem) : Prop := Weight a < Weight b.

(** Position [p] holds the first cumulative weight that is at least [num]. *)
Definition first_at_least (s : WeightedItems) (num p : Z) (ap : WeightedItem)
  : Prop :=
  at_ s p = Some ap /\ num <= Weight ap /\
  forall j a, at_ s j = Some a -> j < p -> Weight a < num.

(** ** The inputs that are evaluated *)

(** The scenario of the specification: weights 1, 2, 5 for indices 0, 1, 2,
    and its cumulative array. *)
Definition scenario : WeightedItems := [mkItem 1 0; mkItem 2 1; mkItem 5 2].
Definition scenario_cdf : WeightedItems := [mkItem 1 0; mkItem 3 1; mkItem 8 2].

(** A floating-point example: weights 1.5, 2.25, 5.75 for indices 0, 1, 2. *)
Definition scenarioF : WeightedItemsFloat :=
  [mkItemFloat 1.5 0; mkItemFloat 2.25 1; mkItemFloat 5.75 2].
Definition scenarioF_cdf : WeightedItemsFloat :=
  [mkItemFloat 1.5 0; mkItemFloat 3.75 1; mkItemFloat 9.5 2].

(** The input of the overflow examples: two weights of 2^62. *)
Definition overflowing : WeightedItems := [mkItem (2 ^ 62) 0; mkItem (2 ^ 62) 1].

#[local] Instance outcome_eq_dec : EqDecision outcome.
Proof. solve_decision. Defined.

(** How many of the listed outcomes are the return of index [i]. *)
Definition count_index (i : Z) (l : list outcome) : nat :=
  length (filter (fun o => o = Return i) l).

(** ** The tests of [stairs_test.go] *)

(** How a test function ends: without or with a call of [t.Fail()], or in a
    panic.  [NoVerdict] is a search that the fuel did not let finish. *)
Inductive verdict := Passed | Failed | Panicked | NoVerdict.

(** [if err != nil { t.Fail() }] and [if err == nil { t.Fail() }] *)
Definition fail_on_error (e : option error) : bool :=
  match e with Some _ => true | None => false end.

Definition fail_on_nil (e : option error) : bool :=
  match e with Some _ => false | None => true end.

Definition ended (failed : bool) : verdict := if failed then Failed else Passed.

(** [for i, val := range a { w = append(w, WeightedItem{val.weight, i}) }]
    over the weights 1, 2, 5. *)
Definition buildWeightedArray : WeightedItems :=
  imap (fun i weight => mkItem weight (Z.of_nat i)) [1; 2; 5].

(** The same loop over the weights 1.5, 2.33, 5.8999. *)
Definition buildWeightedFloatArray : WeightedItemsFloat :=
  imap (fun i weight => mkItemFloat weight (Z.of_nat i))
    [0x1.8p+0; 0x1.2a3d70a3d70a4p+1; 0x1.7997f62b6ae7dp+2]%float.

(** [for i := 0; i < 100; i++ { index := f();
      if index < 0 || index > len(w) { t.Fail() } }], entered at round [i]
    with [n] rounds to go.  [f] is the closure the build returned ([None]
    for [nil], whose call panics), [rand i] what the generator produces in
    round [i], and [failed] whether [t.Fail()] has been called. *)
Fixpoint select_loop {R} (n i : nat) (f : option (R -> outcome)) (rand : nat -> R)
  (lenw : Z) (failed : bool) : verdict :=
  match n with
  | O => ended failed
  | S n' =>
      match f with
      | None => Panicked
      | Some call =>
          match call (rand i) with
          | Return index =>
              select_loop n' (S i) f rand lenw
                (if (index <? 0) || (index >? lenw) then true else failed)
          | Panic => Panicked
          | OutOfFuel => NoVerdict
          end
      end
  end.

Definition TestBuild `{SortAlgorithm} : verdict :=
  match BuildCDF buildWeightedArray with
  | None => Panicked
  | Some b => ended (fail_on_error (err b))
  end.

Definition TestSelectItemsFrom `{SortAlgorithm} (rand : nat -> Z) : verdict :=
  match BuildCDF buildWeightedArray with
  | None => Panicked
  | Some b =>
      select_loop 100 0 (draw b) rand (len (slice b)) (fail_on_error (err b))
  end.

Definition TestEmpty `{SortAlgorithm} : verdict :=
  match BuildCDF [] with
  | None => Panicked
  | Some b => ended (fail_on_nil (err b))
  end.

Definition TestZeroWeight `{SortAlgorithm} : verdict :=
  match BuildCDF [mkItem 5 0; mkItem 0 1; mkItem 3 2] with
  | None => Panicked
  | Some b => ended (fail_on_nil (err b))
  end.

Definition TestNegativeWeight `{SortAlgorithm} : verdict :=
  match BuildCDF [mkItem 5 0; mkItem (-64) 1; mkItem 3 2] with
  | None => Panicked
  | Some b => ended (fail_on_nil (err b))
  end.

Definition TestBuildFloat `{SortAlgorithmFloat} : verdict :=
  match BuildCDFFloat buildWeightedFloatArray with
  | None => Panicked
  | Some b => ended (fail_on_error (errF b))
  end.

Definition TestSelectItemsFromFloat `{SortAlgorithmFloat} (rand : nat -> float)
  : verdict :=
  match BuildCDFFloat buildWeightedFloatArray with
  | None => Panicked
  | Some b =>
      select_loop 100 0 (drawF b) rand (len (sliceF b)) (fail_on_error (errF b))
  end.

Definition TestEmptyFloat `{SortAlgorithmFloat} : verdict :=
  match BuildCDFFloat [] with
  | None => Panicked
  | Some b => ended (fail_on_nil (errF b))
  end.

(** The weights 3.7473, 0, 1.373. *)
Definition TestZeroWeightFloat `{SortAlgorithmFloat} : verdict :=
  match BuildCDFFloat [mkItemFloat 0x1.dfa786c22680ap+1 0; mkItemFloat 0 1;
                       mkItemFloat 0x1.5f7ced916872bp+0 2] with
  | None => Panicked
  | Some b => ended (fail_on_nil (errF b))
  end.

(** The weights 3.7473, -100.937, 1.373. *)
Definition TestNegativeWeightFloat `{SortAlgorithmFloat} : verdict :=
  match BuildCDFFloat [mkItemFloat 0x1.dfa786c22680ap+1 0;
                       mkItemFloat (-0x1.93bf7ced91687p+6) 1;
                       mkItemFloat 0x1.5f7ced916872bp+0 2] with
  | None => Panicked
  | Some b => ended (fail_on_nil (errF b))
  end.

(** * Facts about the model *)

(** ** Facts about the insertion sort *)

Lemma swap_at_adjacent {A} (l1 : list A) x y l2 :
  swap_at (l1 ++ y :: x :: l2) (S (length l1)) (length l1) = l1 ++ x :: y :: l2.
Proof.
  unfold swap_at.
  rewrite (list_lookup_middle l1 (x :: l2) y (length l1)) by reflexivity.
  replace ((l1 ++ y :: x :: l2) !! S (length l1)) with (Some x).
  - induction l1 as [|a l1 IH]; [reflexivity|].
    cbn [app length insert list_insert]. f_equal. exact IH.
  - symmetry. rewrite (cons_middle y l1), app_assoc.
    apply list_lookup_middle. rewrite length_app. cbn. lia.
Qed.

Lemma swap_at_adjacent_perm {A} (s : list A) j : swap_at s (S j) j ≡ₚ s.
Proof.
  unfold swap_at.
  destruct (s !! S j) as [x|] eqn:Ex; [|reflexivity].
  destruct (s !! j) as [y|] eqn:Ey; [|reflexivity].
  pose proof (take_drop_middle s j y Ey) as Hs.
  pose proof (take_drop_middle s (S j) x Ex) as Hs'.
  assert (Hd : drop (S j) s = x :: drop (S (S j)) s).
  { rewrite <- (take_drop_middle _ _ _ Ex) at 1.
    rewrite drop_app_length'; [reflexivity|].
    rewrite length_take. apply lookup_lt_Some in Ex. lia. }
  assert (Hl : length (take j s) = j).
  { rewrite length_take. apply lookup_lt_Some in Ey. lia. }
  rewrite Hd in Hs.
  pose proof (swap_at_adjacent (take j s) x y (drop (S (S j)) s)) as Hsw.
  unfold swap_at in Hsw. rewrite Hl, Hs, Ex, Ey in Hsw. rewrite Hsw.
  transitivity (take j s ++ y :: x :: drop (S (S j)) s); [|by rewrite Hs].
  apply Permutation_app_head, perm_swap.
Qed.

Lemma sift_perm {A} (less : list A -> nat -> nat -> bool) j (s : list A) :
  sift less swap_at j s ≡ₚ s.
Proof.
  revert s. induction j as [|j IH]; intros s; cbn [sift]; [reflexivity|].
  destruct (less s (S j) j); [|reflexivity].
  rewrite IH. apply swap_at_adjacent_perm.
Qed.

Lemma insertion_loop_perm {A} (less : list A -> nat -> nat -> bool) n i (s : list A) :
  insertion_loop less swap_at n i s ≡ₚ s.
Proof.
  revert s i. induction n as [|n IH]; intros s i; cbn [insertion_loop]; [reflexivity|].
  rewrite IH. apply sift_perm.
Qed.

Lemma insertionSort_perm {A} (less : list A -> nat -> nat -> bool) (s : list A) :
  insertionSort less swap_at s ≡ₚ s.
Proof. apply insertion_loop_perm. Qed.

#[local] Instance weight_le_trans : Transitive weight_le.
Proof. unfold weight_le. intros a b c. lia. Qed.

(** One run of the inner loop puts [x] in its place among the sorted
    elements before it and leaves the rest of the slice alone. *)
Lemma sift_sorted l1 x l2 :
  StronglySorted weight_le l1 ->
  exists l1', sift Less Swap (length l1) (l1 ++ x :: l2) = l1' ++ l2 /\
              length l1' = S (length l1) /\ StronglySorted weight_le l1' /\
              (forall y, y ∈ l1' -> y = x \/ y ∈ l1).
Proof.
  revert l2. induction l1 as [|y l1 IH] using rev_ind; intros l2 Hs.
  { exists [x]. repeat split; [repeat constructor|set_solver]. }
  apply StronglySorted_app in Hs as (Hle & Hs1 & _).
  rewrite length_app, Nat.add_1_r. cbn [sift].
  assert (Ex : ((l1 ++ [y]) ++ x :: l2) !! S (length l1) = Some x).
  { apply list_lookup_middle. rewrite length_app. cbn. lia. }
  assert (Ey : ((l1 ++ [y]) ++ x :: l2) !! length l1 = Some y).
  { rewrite <- app_assoc. by apply list_lookup_middle. }
  unfold Less at 1. rewrite Ex, Ey.
  destruct (Z.ltb_spec (Weight x) (Weight y)) as [Hlt|Hge].
  - unfold Swap. rewrite <- app_assoc. cbn [app]. rewrite swap_at_adjacent.
    destruct (IH (y :: l2) Hs1) as (l1' & E & Hlen & Hs' & Hin).
    fold Swap. rewrite E. exists (l1' ++ [y]).
    rewrite <- app_assoc, length_app, Hlen. cbn [app length].
    repeat split; [lia| |].
    + apply StronglySorted_app_2; [|done|repeat constructor].
      intros a b Ha Hb. apply list_elem_of_singleton in Hb as ->.
      destruct (Hin _ Ha) as [->|Ha']; [unfold weight_le; lia|].
      apply Hle; [done|set_solver].
    + intros a Ha. apply elem_of_app in Ha as [Ha|Ha].
      * destruct (Hin _ Ha) as [->|Ha']; [by left|].
        right. apply elem_of_app. by left.
      * right. apply elem_of_app. by right.
  - exists ((l1 ++ [y]) ++ [x]).
    split; [by rewrite <- !app_assoc|].
    split; [rewrite !length_app; cbn; lia|].
    split.
    2:{ intros a Ha. apply elem_of_app in Ha as [Ha|Ha]; [by right|].
        left. by apply list_elem_of_singleton in Ha. }
    apply StronglySorted_app_2; [| |repeat constructor].
    + intros a b Ha Hb. apply list_elem_of_singleton in Hb as ->.
      apply elem_of_app in Ha as [Ha|Ha].
      * transitivity y; [apply Hle; set_solver|unfold weight_le; lia].
      * apply list_elem_of_singleton in Ha as ->. unfold weight_le; lia.
    + apply StronglySorted_app_2; [done..|repeat constructor].
Qed.

Lemma insertion_loop_sorted l2 : forall l1,
  StronglySorted weight_le l1 ->
  StronglySorted weight_le
    (insertion_loop Less Swap (length l2) (length l1) (l1 ++ l2)).
Proof.
  induction l2 as [|x l2 IH]; intros l1 Hs; cbn [length insertion_loop].
  { by rewrite app_nil_r. }
  destruct (sift_sorted l1 x l2 Hs) as (l1' & E & Hlen & Hs' & _).
  rewrite E, <- Hlen. by apply IH.
Qed.

Lemma insertionSort_sorted (s : WeightedItems) :
  StronglySorted weight_le (insertionSort Less Swap s).
Proof.
  unfold insertionSort. destruct s as [|a s]; [constructor|].
  replace (length (a :: s) - 1)%nat with (length s) by (cbn; lia).
  apply (insertion_loop_sorted s [a]). repeat constructor.
Qed.

(** The library's insertion sort meets the contract. *)
#[export] Instance insertion_sort_algorithm : SortAlgorithm := {|
  sort_Sort := insertionSort Less Swap;
  sort_Sort_perm := insertionSort_perm Less;
  sort_Sort_sorted := insertionSort_sorted
|}.

#[export] Instance insertion_sort_algorithm_float : SortAlgorithmFloat := {|
  sort_SortF := insertionSort LessF SwapF;
  sort_SortF_perm := insertionSort_perm LessF
|}.

(** ** Subscripts, and the loop the two searches share *)

Lemma at_Some {A} (s : list A) i :
  0 <= i <= len s - 1 -> exists a, at_ s i = Some a.
Proof.
  intros Hi. unfold at_, len in *.
  destruct (Z.ltb_spec i 0); [lia|].
  apply lookup_lt_is_Some_2. lia.
Qed.

Lemma at_elem_of {A} (s : list A) i a : at_ s i = Some a -> a ∈ s.
Proof.
  unfold at_. destruct (i <? 0); [discriminate|]. apply list_elem_of_lookup_2.
Qed.

Lemma at_range {A} (s : list A) i a : at_ s i = Some a -> 0 <= i <= len s - 1.
Proof.
  unfold at_, len. destruct (Z.ltb_spec i 0); [discriminate|].
  intros Hlt%lookup_lt_Some. lia.
Qed.

Lemma midpoint_range left right :
  0 <= left <= right -> left <= (left + right) ÷ 2 <= right.
Proof.
  intros H. rewrite Z.quot_div_nonneg by lia.
  split; [apply Z.div_le_lower_bound|apply Z.div_le_upper_bound]; lia.
Qed.

Section SkeletonFacts.
Context {A : Type}.
Variables (hit below above atmost : A -> bool) (idx : A -> Z).
Variable s : list A.

(** A weight that is below [num] is also at most [num]. *)
Hypothesis below_atmost : forall a, a ∈ s -> below a = true -> atmost a = true.

(** From bounds the loop can be in, a fuel larger than their distance leads
    to a [return], and what is returned is the index field of an element. *)
Lemma bsearch_returns fuel : forall left right,
  bounds_ok below atmost s left right ->
  right - left < Z.of_nat fuel ->
  exists a, a ∈ s /\ bsearch hit below above atmost idx fuel s left right = Return (idx a).
Proof.
  induction fuel as [|fuel IH]; intros left right (Hlr & Hr & Hl & Hr') Hf; [lia|].
  cbn [bsearch].
  pose proof (midpoint_range left right Hlr) as Hm.
  set (m := (left + right) ÷ 2) in *.
  destruct (at_Some s m ltac:(lia)) as [sm Esm]. rewrite Esm.
  destruct (hit sm); [eauto using at_elem_of|].
  destruct (below sm) eqn:Eb.
  - destruct (Z.eqb_spec m (len s - 1)) as [|Hne]; [eauto using at_elem_of|].
    destruct (at_Some s (m + 1) ltac:(lia)) as [sn Esn]. rewrite Esn.
    destruct (above sn); [eauto using at_elem_of|].
    apply IH; [|lia].
    assert (m <> right).
    { intros ->. destruct Hr' as [|(a & Ea & Ha)]; [lia|].
      rewrite Esm in Ea. injection Ea as <-.
      rewrite below_atmost in Ha by eauto using at_elem_of. discriminate. }
    repeat split; [lia..| |done].
    right. exists sm. by replace (m + 1 - 1) with m by lia.
  - destruct (Z.eqb_spec m 0) as [|Hne]; [eauto using at_elem_of|].
    destruct (at_Some s (m - 1) ltac:(lia)) as [sp Esp]. rewrite Esp.
    destruct (atmost sp) eqn:Ea; [eauto using at_elem_of|].
    apply IH; [|lia].
    assert (m <> left).
    { intros ->. destruct Hl as [|(a & Ea' & Ha)]; [lia|].
      rewrite Esp in Ea'. injection Ea' as <-.
      rewrite below_atmost in Ea by eauto using at_elem_of. discriminate. }
    repeat split; [lia..|done|].
    right. eauto.
Qed.

(** The search as the closures start it: as many rounds as the slice has
    elements are enough. *)
Lemma bsearch_start_returns fuel :
  s <> [] -> (length s <= fuel)%nat ->
  exists a, a ∈ s /\
    bsearch hit below above atmost idx fuel s 0 (len s - 1) = Return (idx a).
Proof.
  intros Hne Hfuel. apply bsearch_returns.
  - assert (0 < len s) by (unfold len; destruct s; [done|cbn; lia]).
    repeat split; [lia..| |]; by left.
  - unfold len. lia.
Qed.

End SkeletonFacts.

(** ** The two searches are instances of the shared loop *)

Lemma search_loop_bsearch fuel s num : forall left right,
  search_loop fuel s num left right =
  bsearch (fun a => Weight a =? num) (fun a => Weight a <? num)
          (fun a => Weight a >? num) (fun a => Weight a <=? num)
          Index fuel s left right.
Proof.
  induction fuel as [|fuel IH]; intros left right; [reflexivity|].
  cbn [search_loop bsearch]. repeat case_match; try reflexivity; apply IH.
Qed.

Lemma search_loopF_bsearch fuel s num : forall left right,
  search_loopF fuel s num left right =
  bsearch (fun a => abs (WeightF a - num) <=? EPSILON)%float
          (fun a => WeightF a <? num)%float
          (fun a => num <? WeightF a)%float
          (fun a => WeightF a <=? num)%float
          IndexF fuel s left right.
Proof.
  induction fuel as [|fuel IH]; intros left right; [reflexivity|].
  cbn [search_loopF bsearch]. repeat case_match; try reflexivity; apply IH.
Qed.

(** On [float64], [x < y] gives [x <= y], whatever [x] and [y] are. *)
Lemma float_ltb_leb (x y : float) :
  (x <? y)%float = true -> (x <=? y)%float = true.
Proof.
  rewrite ltb_spec, leb_spec. unfold SFltb, SFleb.
  destruct (SFcompare _ _) as [[]|]; congruence.
Qed.

(** On [float64], [<=] is transitive, whatever the three numbers are. *)
Lemma SFleb_trans a b c :
  SFleb a b = true -> SFleb b c = true -> SFleb a c = true.
Proof.
  unfold SFleb, SFcompare.
  destruct a as [[]|[]| |[] ma ea], b as [[]|[]| |[] mb eb], c as [[]|[]| |[] mc ec];
    cbn; try congruence.
  all: change (Pos.compare_cont Eq) with Pos.compare.
  all: destruct (Z.compare_spec ea eb), (Z.compare_spec eb ec), (Z.compare_spec ea ec);
    try congruence; try lia.
  all: destruct (Pos.compare_spec ma mb), (Pos.compare_spec mb mc),
         (Pos.compare_spec ma mc); cbn; try congruence; try lia.
Qed.

(** The integer search returns, and returns the index field of an element:
    for every slice that is not empty and every [num]. *)
Lemma search_loop_returns (s : WeightedItems) num fuel :
  s <> [] -> (length s <= fuel)%nat ->
  exists a, a ∈ s /\ search_loop fuel s num 0 (len s - 1) = Return (Index a).
Proof.
  intros Hne Hfuel. rewrite search_loop_bsearch.
  apply bsearch_start_returns; [|done..].
  intros a _ Ha. apply Z.ltb_lt in Ha. apply Z.leb_le. lia.
Qed.

Lemma search_returns (s : WeightedItems) num :
  s <> [] -> exists a, a ∈ s /\ search s num = Return (Index a).
Proof. intros Hne. by apply search_loop_returns. Qed.

Lemma search_loopF_returns (s : WeightedItemsFloat) num fuel :
  s <> [] -> (length s <= fuel)%nat ->
  exists a, a ∈ s /\ search_loopF fuel s num 0 (len s - 1) = Return (IndexF a).
Proof.
  intros Hne Hfuel. rewrite search_loopF_bsearch.
  apply bsearch_start_returns; [|done..].
  intros a _. apply float_ltb_leb.
Qed.

Lemma searchF_returns (s : WeightedItemsFloat) num :
  s <> [] -> exists a, a ∈ s /\ searchF s num = Return (IndexF a).
Proof. intros Hne. by apply search_loopF_returns. Qed.

(** ** Facts about [wrap] *)

Lemma wrap_id z : is_int z -> wrap z = z.
Proof.
  unfold is_int, wrap, MinInt, MaxInt, intSize. intros H.
  rewrite Z.mod_small; lia.
Qed.

Lemma wrap_is_int z : is_int (wrap z).
Proof.
  unfold is_int, wrap, MinInt, MaxInt, intSize.
  pose proof (Z.mod_pos_bound (z + 2 ^ (64 - 1)) (2 ^ 64) ltac:(lia)). lia.
Qed.

(** ** The accumulation loops in closed form *)

Lemma accumulate_cumul l2 : forall l1 p,
  Forall (fun a => 0 < Weight a) l2 ->
  accumulate (length l2) (S (length l1)) (l1 ++ p :: l2)
  = Some (l1 ++ p :: cumul p l2, None).
Proof.
  induction l2 as [|c l2 IH]; intros l1 p Hpos; [reflexivity|].
  apply Forall_cons in Hpos as [Hc Hpos].
  cbn [length accumulate cumul].
  assert (Ec : (l1 ++ p :: c :: l2) !! S (length l1) = Some c).
  { rewrite (cons_middle p l1), app_assoc.
    apply list_lookup_middle. rewrite length_app. cbn. lia. }
  rewrite Ec. cbn [mbind option_bind].
  destruct (Z.leb_spec (Weight c) 0) as [|_]; [lia|].
  replace (S (length l1) - 1)%nat with (length l1) by lia.
  rewrite list_lookup_middle by reflexivity. cbn [mbind option_bind].
  replace (<[S (length l1) := add_prev c p]> (l1 ++ p :: c :: l2))
    with ((l1 ++ [p]) ++ add_prev c p :: l2).
  - replace (S (S (length l1))) with (S (length (l1 ++ [p])))
      by (rewrite length_app; cbn; lia).
    rewrite IH by done. by rewrite <- app_assoc.
  - rewrite <- app_assoc. cbn [app].
    rewrite insert_app_r_alt by lia.
    by replace (S (length l1) - length l1)%nat with 1%nat by lia.
Qed.

(** In the floating-point loop the check reads [s[0]], which the loop never
    writes: once [s[0]] has passed, the loop cannot fail. *)
Lemma accumulateF_cumulF l2 : forall l1 p first,
  (l1 ++ [p]) !! 0%nat = Some first ->
  (WeightF first <=? 0)%float = false ->
  accumulateF (length l2) (S (length l1)) (l1 ++ p :: l2)
  = Some (l1 ++ p :: cumulF p l2, None).
Proof.
  induction l2 as [|c l2 IH]; intros l1 p first Hfirst Hpos; [reflexivity|].
  cbn [length accumulateF cumulF].
  assert (E0 : (l1 ++ p :: c :: l2) !! 0%nat = Some first).
  { rewrite (cons_middle p l1), app_assoc.
    by apply lookup_app_l_Some. }
  assert (Ec : (l1 ++ p :: c :: l2) !! S (length l1) = Some c).
  { rewrite (cons_middle p l1), app_assoc.
    apply list_lookup_middle. rewrite length_app. cbn. lia. }
  rewrite E0. cbn [mbind option_bind]. rewrite Hpos.
  rewrite Ec. cbn [mbind option_bind].
  replace (S (length l1) - 1)%nat with (length l1) by lia.
  rewrite list_lookup_middle by reflexivity. cbn [mbind option_bind].
  replace (<[S (length l1) := add_prevF c p]> (l1 ++ p :: c :: l2))
    with ((l1 ++ [p]) ++ add_prevF c p :: l2).
  - replace (S (S (length l1))) with (S (length (l1 ++ [p])))
      by (rewrite length_app; cbn; lia).
    rewrite (IH _ _ first); [by rewrite <- app_assoc| |done].
    by apply lookup_app_l_Some.
  - rewrite <- app_assoc. cbn [app].
    rewrite insert_app_r_alt by lia.
    by replace (S (length l1) - length l1)%nat with 1%nat by lia.
Qed.

(** ** The builds in closed form *)

Lemma len_pos {A} (s : list A) : s <> [] -> (len s <=? 0) = false.
Proof. intros Hne. unfold len. destruct s; [done|]. apply Z.leb_gt. cbn. lia. Qed.

Section IntegerBuild.
Context `{SortAlgorithm}.

Lemma sort_Sort_cons (s : WeightedItems) :
  s <> [] -> exists first rest, sort_Sort s = first :: rest.
Proof.
  intros Hne. destruct (sort_Sort s) as [|first rest] eqn:E; [|eauto].
  pose proof (sort_Sort_perm s) as Hp. rewrite E in Hp.
  by apply Permutation_nil in Hp.
Qed.

Lemma sort_Sort_elem_of (s : WeightedItems) a : a ∈ sort_Sort s <-> a ∈ s.
Proof. by rewrite (sort_Sort_perm s). Qed.

(** The first element of the sorted slice has the least weight. *)
Lemma sort_Sort_first_least (s : WeightedItems) first rest a :
  sort_Sort s = first :: rest -> a ∈ s -> Weight first <= Weight a.
Proof.
  intros E Ha. apply sort_Sort_elem_of in Ha. rewrite E in Ha.
  pose proof (sort_Sort_sorted s) as Hs. rewrite E in Hs.
  apply StronglySorted_cons in Hs as [Hall _].
  apply elem_of_cons in Ha as [->|Ha]; [lia|].
  rewrite Forall_forall in Hall. by apply Hall.
Qed.

Lemma BuildCDF_nil : BuildCDF [] = Some (mkBuilt [] None (Some tooShortErr)).
Proof. reflexivity. Qed.

Lemma BuildCDF_cons (s : WeightedItems) first rest :
  sort_Sort s = first :: rest ->
  BuildCDF s = Some
    (if Weight first <=? 0
     then mkBuilt (first :: rest) None (Some zeroWeightErr)
     else let s2 := first :: cumul first rest in
          mkBuilt s2 (Some (searchCDF s2)) None).
Proof.
  intros E. unfold BuildCDF.
  assert (Hne : s <> []).
  { intros ->. pose proof (sort_Sort_perm []) as Hp. rewrite E in Hp.
    by apply Permutation_nil_r in Hp. }
  rewrite (len_pos s Hne), E. cbn [lookup list_lookup mbind option_bind].
  destruct (Z.leb_spec (Weight first) 0) as [|Hpos]; [reflexivity|].
  cbn [length]. replace (S (length rest) - 1)%nat with (length rest) by lia.
  pose proof (accumulate_cumul rest [] first) as Hacc.
  cbn [length app] in Hacc. rewrite Hacc; [reflexivity|].
  apply Forall_forall. intros a Ha.
  enough (Weight first <= Weight a) by lia.
  apply (sort_Sort_first_least s first rest); [done|].
  apply sort_Sort_elem_of. rewrite E. by right.
Qed.

(** When the integer build fails and when it succeeds. *)
Lemma BuildCDF_outcome (s : WeightedItems) :
  (s = [] -> BuildCDF s = Some (mkBuilt [] None (Some tooShortErr))) /\
  (s <> [] -> Forall (fun a => 0 < Weight a) s ->
     exists s2, BuildCDF s = Some (mkBuilt s2 (Some (searchCDF s2)) None)) /\
  (Exists (fun a => Weight a <= 0) s ->
     BuildCDF s = Some (mkBuilt (sort_Sort s) None (Some zeroWeightErr))).
Proof.
  split; [by intros ->|]. split.
  - intros Hne Hpos. destruct (sort_Sort_cons s Hne) as (first & rest & E).
    rewrite (BuildCDF_cons s first rest E).
    destruct (Z.leb_spec (Weight first) 0) as [Hle|_]; [|eauto].
    rewrite Forall_forall in Hpos.
    assert (first ∈ s) as Hin%Hpos by (apply sort_Sort_elem_of; rewrite E; by left).
    lia.
  - intros Hex. apply Exists_exists in Hex as (a & Ha & Hle).
    assert (Hne : s <> []) by (by intros ->; apply elem_of_nil in Ha).
    destruct (sort_Sort_cons s Hne) as (first & rest & E).
    rewrite (BuildCDF_cons s first rest E), E.
    pose proof (sort_Sort_first_least s first rest a E Ha).
    destruct (Z.leb_spec (Weight first) 0) as [_|]; [reflexivity|lia].
Qed.

End IntegerBuild.

Section FloatBuild.
Context `{SortAlgorithmFloat}.

Lemma sort_SortF_cons (s : WeightedItemsFloat) :
  s <> [] -> exists first rest, sort_SortF s = first :: rest.
Proof.
  intros Hne. destruct (sort_SortF s) as [|first rest] eqn:E; [|eauto].
  pose proof (sort_SortF_perm s) as Hp. rewrite E in Hp.
  by apply Permutation_nil in Hp.
Qed.

Lemma BuildCDFFloat_nil :
  BuildCDFFloat [] = Some (mkBuiltF [] None (Some tooShortErr)).
Proof. reflexivity. Qed.

Lemma BuildCDFFloat_cons (s : WeightedItemsFloat) first rest :
  sort_SortF s = first :: rest ->
  BuildCDFFloat s = Some
    (if (WeightF first <=? 0)%float
     then mkBuiltF (first :: rest) None (Some zeroWeightErr)
     else let s2 := first :: cumulF first rest in
          mkBuiltF s2 (Some (searchCDFFloat s2)) None).
Proof.
  intros E. unfold BuildCDFFloat.
  assert (Hne : s <> []).
  { intros ->. pose proof (sort_SortF_perm []) as Hp. rewrite E in Hp.
    by apply Permutation_nil_r in Hp. }
  rewrite (len_pos s Hne), E. cbn [lookup list_lookup mbind option_bind].
  destruct (WeightF first <=? 0)%float eqn:Hpos; [reflexivity|].
  cbn [length]. replace (S (length rest) - 1)%nat with (length rest) by lia.
  pose proof (accumulateF_cumulF rest [] first first eq_refl Hpos) as Hacc.
  cbn [length app] in Hacc. by rewrite Hacc.
Qed.

End FloatBuild.

(** ** Slices that are already in strict order *)

Lemma weight_lt_le_sorted (s : WeightedItems) :
  StronglySorted weight_lt s -> StronglySorted weight_le s.
Proof.
  induction 1 as [|a l _ IH Hall]; constructor; [done|].
  eapply Forall_impl; [exact Hall|]. unfold weight_lt, weight_le. intros; lia.
Qed.

(** In a strictly ordered slice the weight determines the element. *)
Lemma weight_lt_sorted_inj (s : WeightedItems) a b :
  StronglySorted weight_lt s -> a ∈ s -> b ∈ s -> Weight a = Weight b -> a = b.
Proof.
  induction 1 as [|c l _ IH Hall]; intros Ha Hb Hw; [by apply elem_of_nil in Ha|].
  rewrite Forall_forall in Hall. unfold weight_lt in Hall.
  apply elem_of_cons in Ha as [->|Ha]; apply elem_of_cons in Hb as [->|Hb].
  - reflexivity.
  - specialize (Hall _ Hb). lia.
  - specialize (Hall _ Ha). lia.
  - by apply IH.
Qed.

(** Sorting such a slice changes nothing, whichever algorithm sorts it. *)
Lemma sort_Sort_sorted_id `{SortAlgorithm} (s : WeightedItems) :
  StronglySorted weight_lt s -> sort_Sort s = s.
Proof.
  intros Hs. apply (StronglySorted_unique_strong weight_le).
  - intros a b Ha%(proj1 (sort_Sort_elem_of s a)) Hb Hab Hba.
    apply (weight_lt_sorted_inj s); [done..|]. unfold weight_le in *. lia.
  - apply sort_Sort_sorted.
  - by apply weight_lt_le_sorted.
  - apply sort_Sort_perm.
Qed.

Lemma scenario_sorted : StronglySorted weight_lt scenario.
Proof. repeat constructor; unfold weight_lt; cbn; lia. Qed.

Lemma BuildCDF_scenario `{SortAlgorithm} :
  BuildCDF scenario = Some (mkBuilt scenario_cdf (Some (searchCDF scenario_cdf)) None).
Proof.
  rewrite (BuildCDF_cons scenario (mkItem 1 0) [mkItem 2 1; mkItem 5 2]).
  - reflexivity.
  - apply sort_Sort_sorted_id, scenario_sorted.
Qed.

(** ** What the running sums keep *)

Lemma cumul_Index p l : Index <$> cumul p l = Index <$> l.
Proof. revert p. induction l as [|c l IH]; intros p; [done|]. cbn. by rewrite IH. Qed.

Lemma cumulF_IndexF p l : IndexF <$> cumulF p l = IndexF <$> l.
Proof. revert p. induction l as [|c l IH]; intros p; [done|]. cbn. by rewrite IH. Qed.

(** An index field found in a successfully built integer slice is the index
    field of an item of the caller. *)
Lemma built_Index_supplied `{SortAlgorithm} (s : WeightedItems) first rest a :
  sort_Sort s = first :: rest -> a ∈ first :: cumul first rest ->
  exists a0, a0 ∈ s /\ Index a0 = Index a.
Proof.
  intros E Ha.
  assert (Hin : Index a ∈ Index <$> (first :: rest)).
  { rewrite fmap_cons, <- (cumul_Index first rest), <- fmap_cons.
    by apply list_elem_of_fmap_2. }
  apply list_elem_of_fmap in Hin as (a0 & Hi & Ha0).
  exists a0. split; [|done]. apply sort_Sort_elem_of. by rewrite E.
Qed.

Lemma builtF_IndexF_supplied `{SortAlgorithmFloat} (s : WeightedItemsFloat)
  first rest a :
  sort_SortF s = first :: rest -> a ∈ first :: cumulF first rest ->
  exists a0, a0 ∈ s /\ IndexF a0 = IndexF a.
Proof.
  intros E Ha.
  assert (Hin : IndexF a ∈ IndexF <$> (first :: rest)).
  { rewrite fmap_cons, <- (cumulF_IndexF first rest), <- fmap_cons.
    by apply list_elem_of_fmap_2. }
  apply list_elem_of_fmap in Hin as (a0 & Hi & Ha0).
  exists a0. split; [|done]. rewrite <- (sort_SortF_perm s), E. done.
Qed.

(** A build that returns a closure: the shape of what it returns. *)
Lemma BuildCDF_success `{SortAlgorithm} (s : WeightedItems) b f :
  BuildCDF s = Some b -> draw b = Some f ->
  exists first rest,
    sort_Sort s = first :: rest /\ 0 < Weight first /\
    slice b = first :: cumul first rest /\ f = searchCDF (slice b) /\ err b = None.
Proof.
  intros Hb Hf. destruct s as [|a0 s0]; [by injection Hb as <-|].
  destruct (sort_Sort_cons (a0 :: s0) ltac:(done)) as (first & rest & E).
  rewrite (BuildCDF_cons _ _ _ E) in Hb. exists first, rest.
  destruct (Z.leb_spec (Weight first) 0); injection Hb as <-; [done|].
  cbn in *. injection Hf as <-. done.
Qed.

Lemma BuildCDFFloat_success `{SortAlgorithmFloat} (s : WeightedItemsFloat) b f :
  BuildCDFFloat s = Some b -> drawF b = Some f ->
  exists first rest,
    sort_SortF s = first :: rest /\ (WeightF first <=? 0)%float = false /\
    sliceF b = first :: cumulF first rest /\ f = searchCDFFloat (sliceF b) /\
    errF b = None.
Proof.
  intros Hb Hf. destruct s as [|a0 s0]; [by injection Hb as <-|].
  destruct (sort_SortF_cons (a0 :: s0) ltac:(done)) as (first & rest & E).
  rewrite (BuildCDFFloat_cons _ _ _ E) in Hb. exists first, rest.
  destruct (WeightF first <=? 0)%float; injection Hb as <-; [done|].
  cbn in *. injection Hf as <-. done.
Qed.

(** The last element of a slice that is not empty can be read. *)
Lemma at_last {A} (s : list A) : s <> [] -> exists lst, at_ s (len s - 1) = Some lst.
Proof.
  intros Hne. apply at_Some. unfold len. destruct s; [done|]. cbn. lia.
Qed.

(** The floating-point closure never panics and never runs out of fuel. *)
Lemma searchCDFFloat_returns (s : WeightedItemsFloat) u :
  s <> [] -> exists a, a ∈ s /\ searchCDFFloat s u = Return (IndexF a).
Proof.
  intros Hne. unfold searchCDFFloat, draw_numF.
  destruct (at_last s Hne) as [lst ->]. cbn. by apply searchF_returns.
Qed.

(** The integer closure panics when the last weight is not positive, and
    otherwise returns the index field of an element. *)
Lemma searchCDF_returns (s : WeightedItems) raw lst :
  at_ s (len s - 1) = Some lst ->
  if Weight lst <=? 0 then searchCDF s raw = Panic
  else exists a, a ∈ s /\ searchCDF s raw = Return (Index a).
Proof.
  intros E. unfold searchCDF, draw_num, Intn. rewrite E. cbn.
  destruct (Weight lst <=? 0); [done|]. cbn.
  apply search_returns. intros ->. discriminate E.
Qed.

Lemma BuildCDFFloat_scenarioF :
  BuildCDFFloat scenarioF
  = Some (mkBuiltF scenarioF_cdf (Some (searchCDFFloat scenarioF_cdf)) None).
Proof.
  rewrite (BuildCDFFloat_cons scenarioF (mkItemFloat 1.5 0)
             [mkItemFloat 2.25 1; mkItemFloat 5.75 2]);
    [reflexivity|vm_compute; reflexivity].
Qed.

(** ** The check inside the floating-point accumulation loop *)

Lemma accumulateF_no_error n : forall i s1 first s2 e,
  (1 <= i)%nat -> s1 !! 0%nat = Some first ->
  (WeightF first <=? 0)%float = false ->
  accumulateF n i s1 = Some (s2, e) -> e = None.
Proof.
  induction n as [|n IH]; intros i s1 first s2 e Hi H0 Hpos Hacc; cbn in Hacc.
  { by injection Hacc as _ <-. }
  rewrite H0 in Hacc. cbn in Hacc. rewrite Hpos in Hacc.
  destruct (s1 !! i) as [cur|]; [|discriminate]. cbn in Hacc.
  destruct (s1 !! (i - 1)%nat) as [prev|]; [|discriminate]. cbn in Hacc.
  apply (IH (S i) (<[i:=add_prevF cur prev]> s1) first s2 e); [lia| |done..].
  rewrite list_lookup_insert_ne by lia. exact H0.
Qed.

(** ** Running sums that do not overflow *)

Lemma total_nonneg (l : WeightedItems) :
  Forall (fun a => 0 < Weight a) l -> 0 <= total (Weight <$> l).
Proof.
  induction 1 as [|a l Ha _ IH]; unfold total in *; cbn; lia.
Qed.

Lemma total_perm (l1 l2 : list Z) : l1 ≡ₚ l2 -> total l1 = total l2.
Proof.
  unfold total. induction 1; cbn; lia.
Qed.

Lemma total_take_le (l : WeightedItems) i :
  Forall (fun a => 0 < Weight a) l ->
  0 <= total (take i (Weight <$> l)) <= total (Weight <$> l).
Proof.
  intros Hpos. revert i. induction Hpos as [|a l Ha _ IH]; intros i.
  - rewrite fmap_nil, take_nil. unfold total. cbn. lia.
  - pose proof (IH 0%nat) as IH0. rewrite take_0 in IH0.
    destruct i as [|i]; [|specialize (IH i)];
      unfold total in *; cbn in *; lia.
Qed.

(** With positive weights and a total within [int], each element of the
    running sums holds the exact sum up to it. *)
Lemma cumul_lookup_weight l : forall p i c,
  Forall (fun a => 0 < Weight a) l -> 0 < Weight p ->
  Weight p + total (Weight <$> l) <= MaxInt ->
  cumul p l !! i = Some c ->
  Weight c = Weight p + total (take (S i) (Weight <$> l)).
Proof.
  induction l as [|c0 l IH]; intros p i c Hpos Hp Hmax Hc; [done|].
  apply Forall_cons in Hpos as [Hc0 Hpos].
  pose proof (total_nonneg l Hpos) as Hnn.
  assert (Hw : Weight (add_prev c0 p) = Weight c0 + Weight p).
  { cbn. apply wrap_id. unfold is_int, MinInt, MaxInt, intSize, total in *.
    cbn in Hmax. lia. }
  cbn [cumul] in Hc. destruct i as [|i]; cbn in Hc.
  - injection Hc as <-. rewrite Hw. unfold total. cbn. rewrite take_0. cbn. lia.
  - apply IH in Hc; [|done|lia|].
    + rewrite Hc, Hw. unfold total. cbn. lia.
    + rewrite Hw. unfold total in *. cbn in Hmax. lia.
Qed.

(** Under the same conditions every sum exceeds what it started from. *)
Lemma cumul_lookup_gt l p i c :
  Forall (fun a => 0 < Weight a) l -> 0 < Weight p ->
  Weight p + total (Weight <$> l) <= MaxInt ->
  cumul p l !! i = Some c -> Weight p < Weight c.
Proof.
  intros Hpos Hp Hmax Hc. rewrite (cumul_lookup_weight l p i c) by done.
  destruct l as [|c0 l]; [done|].
  apply Forall_cons in Hpos as [Hc0 Hpos].
  pose proof (total_take_le l i Hpos). unfold total in *. cbn. lia.
Qed.

(** And the sums increase strictly. *)
Lemma cumul_sorted l : forall p,
  Forall (fun a => 0 < Weight a) l -> 0 < Weight p ->
  Weight p + total (Weight <$> l) <= MaxInt ->
  StronglySorted weight_lt (p :: cumul p l).
Proof.
  induction l as [|c0 l IH]; intros p Hpos Hp Hmax; [repeat constructor|].
  constructor.
  - apply Forall_cons in Hpos as [Hc0 Hpos].
    pose proof (total_nonneg l Hpos) as Hnn.
    assert (Hw : Weight (add_prev c0 p) = Weight c0 + Weight p).
    { cbn. apply wrap_id. unfold is_int, MinInt, MaxInt, intSize, total in *.
      cbn in Hmax. lia. }
    cbn [cumul]. apply IH; [done|lia|].
    rewrite Hw. unfold total in *. cbn in Hmax. lia.
  - apply Forall_forall. intros c Hc.
    apply list_elem_of_lookup in Hc as [i Hi].
    by apply (cumul_lookup_gt (c0 :: l) p i c).
Qed.

Lemma cumul_length p l : length (cumul p l) = length l.
Proof. revert p. induction l as [|c l IH]; intros p; [done|]. cbn. by rewrite IH. Qed.

(** The integer build of positive weights whose total fits [int]. *)
Lemma BuildCDF_no_overflow `{SortAlgorithm} (s : WeightedItems) :
  s <> [] -> Forall (fun a => 0 < Weight a) s ->
  total (Weight <$> s) <= MaxInt ->
  exists first rest,
    sort_Sort s = first :: rest /\
    BuildCDF s = Some (mkBuilt (first :: cumul first rest)
                         (Some (searchCDF (first :: cumul first rest))) None) /\
    0 < Weight first /\ Forall (fun a => 0 < Weight a) rest /\
    Weight first + total (Weight <$> rest) = total (Weight <$> s).
Proof.
  intros Hne Hpos Hmax.
  destruct (sort_Sort_cons s Hne) as (first & rest & E). exists first, rest.
  assert (Hpos' : Forall (fun a => 0 < Weight a) (first :: rest)).
  { rewrite <- E. by rewrite (sort_Sort_perm s). }
  apply Forall_cons in Hpos' as [Hf Hr].
  split; [done|]. split.
  - rewrite (BuildCDF_cons s first rest E).
    destruct (Z.leb_spec (Weight first) 0); [lia|done].
  - split; [done|]. split; [done|].
    rewrite <- (total_perm _ _ (fmap_Permutation Weight _ _ (sort_Sort_perm s))), E.
    reflexivity.
Qed.

(** The weights of the sorted slice are the supplied weights in ascending
    order, however that order is written down. *)
Lemma sort_Sort_weights `{SortAlgorithm} (s : WeightedItems) (ws : list Z) :
  ws ≡ₚ Weight <$> s -> StronglySorted Z.le ws -> Weight <$> sort_Sort s = ws.
Proof.
  intros Hp Hs. apply (StronglySorted_unique Z.le); [|done|].
  - apply (StronglySorted_fmap Weight weight_le Z.le); [|apply sort_Sort_sorted].
    by intros a b.
  - by rewrite (sort_Sort_perm s).
Qed.

(** ** The integer draw *)

Lemma cumul_is_int p l a : a ∈ cumul p l -> is_int (Weight a).
Proof.
  revert p. induction l as [|c l IH]; intros p Ha; [by apply elem_of_nil in Ha|].
  cbn in Ha. apply elem_of_cons in Ha as [->|Ha]; [apply wrap_is_int|by eapply IH].
Qed.

(** The integer draw over a slice whose last weight is a positive [int]. *)
Lemma draw_num_spec (s : WeightedItems) lst raw :
  at_ s (len s - 1) = Some lst -> 0 < Weight lst -> is_int (Weight lst) ->
  draw_num s raw = Some (raw mod Weight lst + 1) /\
  1 <= raw mod Weight lst + 1 <= Weight lst.
Proof.
  intros El Hpos Hint. unfold draw_num, Intn. rewrite El. cbn.
  destruct (Z.leb_spec (Weight lst) 0); [lia|]. cbn.
  pose proof (Z.mod_pos_bound raw (Weight lst) Hpos).
  rewrite wrap_id; [split; [done|lia]|].
  unfold is_int, MinInt, MaxInt, intSize in *. lia.
Qed.

(** ** What the integer search finds in a strictly increasing slice *)

Lemma sorted_lookup_lt (s : WeightedItems) : forall i j a b,
  StronglySorted weight_lt s -> s !! i = Some a -> s !! j = Some b ->
  (i < j)%nat -> Weight a < Weight b.
Proof.
  induction s as [|x l IH]; intros i j a b Hs Ha Hb Hij; [done|].
  apply StronglySorted_cons in Hs as [Hall Hs].
  destruct j as [|j]; [lia|]. cbn in Hb. destruct i as [|i]; cbn in Ha.
  - injection Ha as <-. rewrite Forall_forall in Hall.
    apply Hall. by eapply list_elem_of_lookup_2.
  - apply (IH i j); [done..|lia].
Qed.

Lemma sorted_at_lt (s : WeightedItems) i j a b :
  StronglySorted weight_lt s -> at_ s i = Some a -> at_ s j = Some b ->
  i < j -> Weight a < Weight b.
Proof.
  unfold at_. intros Hs Ha Hb Hij.
  destruct (Z.ltb_spec i 0); [discriminate|].
  destruct (Z.ltb_spec j 0); [discriminate|].
  apply (sorted_lookup_lt s (Z.to_nat i) (Z.to_nat j)); [done..|lia].
Qed.

(** With the answer between the bounds, the loop returns the index stored at
    the answer's position, or, when the weight there equals [num], possibly
    the index stored one position further: the exit [s[m-1].Weight <= num]
    of the last branch takes the midpoint when the entry before it is the
    exact match. *)
Lemma search_loop_band (s : WeightedItems) num p ap fuel : forall left right,
  StronglySorted weight_lt s -> first_at_least s num p ap ->
  0 <= left <= p -> p <= right <= len s - 1 ->
  right - left < Z.of_nat fuel ->
  search_loop fuel s num left right = Return (Index ap) \/
  (Weight ap = num /\ exists an, at_ s (p + 1) = Some an /\
     search_loop fuel s num left right = Return (Index an)).
Proof.
  induction fuel as [|fuel IH]; intros left right Hs (Hp & Hnum & Hbefore) Hl Hr Hf;
    [lia|].
  assert (Hcmp : forall j a, at_ s j = Some a ->
            (j < p -> Weight a < num) /\ (j = p -> a = ap) /\
            (p < j -> Weight ap < Weight a)).
  { intros j a Ha. split; [by apply Hbefore|]. split.
    - intros ->. congruence.
    - intros Hpj. by apply (sorted_at_lt s p j). }
  cbn [search_loop].
  pose proof (midpoint_range left right ltac:(lia)) as Hm.
  set (m := (left + right) ÷ 2) in *. clearbody m.
  destruct (at_Some s m ltac:(lia)) as [sm Esm]. rewrite Esm.
  destruct (Hcmp m sm Esm) as (Hm1 & Hm2 & Hm3).
  destruct (Z.eqb_spec (Weight sm) num) as [Heq|Hneq].
  { left. rewrite Hm2; [done|]. clear - Hm1 Hm3 Heq Hnum. lia. }
  destruct (Z.ltb_spec (Weight sm) num) as [Hlt|Hge].
  - assert (m < p).
    { destruct (Z.lt_trichotomy m p) as [Hmp|[Hmp|Hmp]]; [done|exfalso..].
      - rewrite (Hm2 Hmp) in Hlt. clear - Hlt Hnum. lia.
      - specialize (Hm3 Hmp). clear - Hm3 Hlt Hnum. lia. }
    destruct (Z.eqb_spec m (len s - 1)); [lia|].
    destruct (at_Some s (m + 1) ltac:(lia)) as [sn Esn]. rewrite Esn.
    destruct (Hcmp (m + 1) sn Esn) as (Hn1 & Hn2 & Hn3).
    destruct (Z.gtb_spec (Weight sn) num) as [Hgt|Hle].
    + left. rewrite Hn2; [done|]. clear - Hn1 Hgt H. lia.
    + apply IH; [done|done|lia..].
  - assert (p <= m) by (clear - Hm1 Hge; lia).
    destruct (Z.eqb_spec m 0) as [Hm0|Hm0].
    { left. rewrite Hm2; [done|lia]. }
    destruct (at_Some s (m - 1) ltac:(lia)) as [sp Esp]. rewrite Esp.
    destruct (Hcmp (m - 1) sp Esp) as (Hp1 & Hp2 & Hp3).
    destruct (Z.leb_spec (Weight sp) num) as [Hle|Hgt].
    + destruct (Z.eq_dec m p) as [Hmp|Hmp]; [left; by rewrite Hm2|].
      right. assert (m - 1 = p) as Hmp' by (clear - Hp3 Hle Hnum H Hmp; lia).
      rewrite Hp2 in Hle by done. split; [lia|].
      exists sm. split; [|done]. by replace (p + 1) with m by lia.
    + apply IH; [done|done|clear - Hl Hm; lia| |clear - Hf Hm; lia].
      assert (m <> p) by (clear - Hp1 Hgt; lia). clear - H H0 Hr Hm. lia.
Qed.

(** The search as the closure runs it.  When the drawn number is not itself
    one of the cumulative weights, the index at the first position whose
    cumulative weight is at least the number is returned. *)
Lemma search_band (s : WeightedItems) num p ap :
  StronglySorted weight_lt s -> first_at_least s num p ap ->
  (search s num = Return (Index ap) \/
   (Weight ap = num /\ exists an, at_ s (p + 1) = Some an /\
      search s num = Return (Index an))) /\
  (num < Weight ap -> search s num = Return (Index ap)).
Proof.
  intros Hs Hfirst. pose proof Hfirst as (Hp & _).
  apply at_range in Hp.
  assert (Hband := search_loop_band s num p ap (length s) 0 (len s - 1) Hs Hfirst
                     ltac:(lia) ltac:(lia) ltac:(unfold len; lia)).
  split; [exact Hband|].
  intros Hlt. destruct Hband as [Hb|[Heq _]]; [exact Hb|lia].
Qed.

(** * The properties of the specification *)

(** C1 (as the code behaves): over the cumulative array [1, 3, 8] the search
    does not always return the index stored at the first position whose
    cumulative value is at least the drawn number.  A drawn value of exactly
    1 resolves to index 1, not 0: the midpoint 1 holds 3 > 1, and the test
    [s[m-1].Weight <= num] accepts the midpoint when the entry before it
    equals the drawn number.  Drawn values 2, 3 and 8 resolve to 1, 1 and 2
    as the specification says. *)
Theorem search_exact_first_band_returns_next_index :
  search scenario_cdf 1 = Return 1 /\
  search scenario_cdf 2 = Return 1 /\
  search scenario_cdf 3 = Return 1 /\
  search scenario_cdf 8 = Return 2.
Proof. repeat split; vm_compute; reflexivity. Qed.

(** C2 (as the code behaves): for the distribution built from weights
    1, 2, 5 and indices 0, 1, 2, whichever algorithm sorts, the eight
    equally likely drawn values 1..8 (the generator's residues 0..7) map to
    index 0 never, to index 1 three times and to index 2 five times: the
    masses are 0/8, 3/8 and 5/8, not 1/8, 2/8 and 5/8. *)
Theorem scenario_draw_counts `{SortAlgorithm} :
  exists f,
    BuildCDF scenario = Some (mkBuilt scenario_cdf (Some f) None) /\
    f <$> [0; 1; 2; 3; 4; 5; 6; 7] =
      [Return 1; Return 1; Return 1; Return 2; Return 2; Return 2; Return 2; Return 2] /\
    draw_num scenario_cdf <$> [0; 1; 2; 3; 4; 5; 6; 7] =
      Some <$> [1; 2; 3; 4; 5; 6; 7; 8] /\
    count_index 0 (f <$> [0; 1; 2; 3; 4; 5; 6; 7]) = 0%nat /\
    count_index 1 (f <$> [0; 1; 2; 3; 4; 5; 6; 7]) = 3%nat /\
    count_index 2 (f <$> [0; 1; 2; 3; 4; 5; 6; 7]) = 5%nat.
Proof.
  exists (searchCDF scenario_cdf). split; [apply BuildCDF_scenario|].
  repeat split; vm_compute; reflexivity.
Qed.

(** C3 (as the code behaves): the floating-point build of the two items
    (NaN, 0) and (-1, 1) returns a closure and no error, although the
    collection holds a weight that is not positive.  The library's insertion
    sort leaves NaN in front (-1 < NaN is false), NaN <= 0 is false, and the
    check inside the loop reads [s[0]] again instead of [s[1]]. *)
Theorem float_build_accepts_negative_weight_after_nan :
  let s := [mkItemFloat nan 0; mkItemFloat (-1)%float 1] in
  sort_SortF s = s /\
  exists s2, BuildCDFFloat s = Some (mkBuiltF s2 (Some (searchCDFFloat s2)) None).
Proof.
  cbn zeta. split; [vm_compute; reflexivity|].
  eexists.
  rewrite (BuildCDFFloat_cons _ (mkItemFloat nan 0) [mkItemFloat (-1)%float 1]);
    [|vm_compute; reflexivity].
  reflexivity.
Qed.

(** C4 as stated fails: both weights of [overflowing] are positive and the
    build succeeds, yet the second entry of the caller's slice is -2^63,
    which is neither the sum 2^63 of the two weights nor above the first
    entry.  The addition wrapped around. *)
Lemma overflow_breaks_prefix_sums :
  forallb (fun a => 0 <? Weight a) overflowing = true /\
  err <$> BuildCDF overflowing = Some None /\
  (fun b => Weight <$> slice b) <$> BuildCDF overflowing
    = Some [2 ^ 62; - 2 ^ 63] /\
  total (Weight <$> overflowing) = 2 ^ 63 /\
  (- 2 ^ 63 <? 2 ^ 62) = true.
Proof. repeat split; vm_compute; reflexivity. Qed.

(** C4, amended: for every non-empty collection of positive integer weights
    whose total does not exceed the largest [int], the build succeeds and
    leaves in the caller's slice, at each position [i], the sum of the
    [i + 1] smallest supplied weights; the last entry is the total of all
    supplied weights, and the entries increase strictly (so they are also
    non-decreasing). *)
Theorem BuildCDF_prefix_sums `{SortAlgorithm} (s : WeightedItems) (ws : list Z) :
  s <> [] -> Forall (fun a => 0 < Weight a) s ->
  total (Weight <$> s) <= MaxInt ->
  ws ≡ₚ Weight <$> s -> StronglySorted Z.le ws ->
  exists s2,
    BuildCDF s = Some (mkBuilt s2 (Some (searchCDF s2)) None) /\
    length s2 = length s /\
    (forall i c, s2 !! i = Some c -> Weight c = total (take (S i) ws)) /\
    (exists lst, last s2 = Some lst /\ Weight lst = total (Weight <$> s)) /\
    StronglySorted weight_lt s2.
Proof.
  intros Hne Hpos Hmax Hws Hsorted.
  destruct (BuildCDF_no_overflow s Hne Hpos Hmax)
    as (first & rest & E & Hb & Hf & Hr & Htot).
  pose proof (sort_Sort_weights s ws Hws Hsorted) as Hw. rewrite E in Hw.
  assert (Hlook : forall i c, (first :: cumul first rest) !! i = Some c ->
            Weight c = total (take (S i) ws)).
  { intros i c Hc. rewrite <- Hw. destruct i as [|i]; cbn in Hc.
    - injection Hc as <-. cbn. rewrite take_0. unfold total. cbn. lia.
    - apply cumul_lookup_weight in Hc; [|done|done|lia].
      rewrite Hc. unfold total. cbn. lia. }
  exists (first :: cumul first rest). split; [done|]. split.
  { cbn. rewrite cumul_length.
    rewrite <- (Permutation_length (sort_Sort_perm s)), E. reflexivity. }
  split; [done|]. split; [|apply cumul_sorted; [done..|lia]].
  assert (El : is_Some (last (first :: cumul first rest))).
  { rewrite last_lookup. apply lookup_lt_is_Some_2. cbn. lia. }
  destruct El as [lst El]. exists lst. split; [done|].
  rewrite last_lookup in El. apply Hlook in El. rewrite El, <- Hw.
  rewrite take_ge.
  - rewrite <- E. apply total_perm. by rewrite (sort_Sort_perm s).
  - rewrite length_fmap. cbn. rewrite cumul_length. lia.
Qed.

(** The theorem at the scenario of the specification. *)
Lemma BuildCDF_prefix_sums_witness :
  exists s2,
    BuildCDF scenario = Some (mkBuilt s2 (Some (searchCDF s2)) None) /\
    length s2 = length scenario /\
    (forall i c, s2 !! i = Some c -> Weight c = total (take (S i) [1; 2; 5])) /\
    (exists lst, last s2 = Some lst /\ Weight lst = total (Weight <$> scenario)) /\
    StronglySorted weight_lt s2.
Proof.
  apply (BuildCDF_prefix_sums scenario [1; 2; 5]).
  - discriminate.
  - repeat constructor.
  - vm_compute. discriminate.
  - reflexivity.
  - repeat constructor; lia.
Defined.

(** C5: for a successfully built distribution of either variant, what the
    draw closure returns is the index field of one of the items supplied.
    The integer closure either panics in [Intn] (only when the last
    cumulative weight is not positive) or returns such an index; the
    floating-point closure always returns one.  Hence, when the supplied
    indices lie in [[0, n)], so does every value drawn. *)
Theorem draw_returns_supplied_index `{SortAlgorithm} `{SortAlgorithmFloat}
  (s : WeightedItems) b f (sF : WeightedItemsFloat) bF fF (n : Z) :
  BuildCDF s = Some b -> draw b = Some f ->
  BuildCDFFloat sF = Some bF -> drawF bF = Some fF ->
  (forall raw,
     (f raw = Panic /\
      exists lst, at_ (slice b) (len (slice b) - 1) = Some lst /\ Weight lst <= 0)
     \/ exists a, a ∈ s /\ f raw = Return (Index a)) /\
  (forall u, exists a, a ∈ sF /\ fF u = Return (IndexF a)) /\
  ((forall a, a ∈ s -> 0 <= Index a < n) ->
   forall raw v, f raw = Return v -> 0 <= v < n) /\
  ((forall a, a ∈ sF -> 0 <= IndexF a < n) ->
   forall u v, fF u = Return v -> 0 <= v < n).
Proof.
  intros Hb Hf HbF HfF.
  destruct (BuildCDF_success s b f Hb Hf) as (first & rest & E & _ & Hs & -> & _).
  destruct (BuildCDFFloat_success sF bF fF HbF HfF)
    as (firstF & restF & EF & _ & HsF & -> & _).
  assert (Hint : forall raw,
     (searchCDF (slice b) raw = Panic /\
      exists lst, at_ (slice b) (len (slice b) - 1) = Some lst /\ Weight lst <= 0)
     \/ exists a, a ∈ s /\ searchCDF (slice b) raw = Return (Index a)).
  { intros raw. destruct (at_last (slice b)) as [lst El]; [by rewrite Hs|].
    pose proof (searchCDF_returns (slice b) raw lst El) as Hr.
    destruct (Z.leb_spec (Weight lst) 0) as [Hle|_]; [left; eauto|].
    right. destruct Hr as (a & Ha & ->). rewrite Hs in Ha.
    destruct (built_Index_supplied s first rest a E Ha) as (a0 & Ha0 & <-). eauto. }
  assert (Hflt : forall u, exists a, a ∈ sF /\
             searchCDFFloat (sliceF bF) u = Return (IndexF a)).
  { intros u. destruct (searchCDFFloat_returns (sliceF bF) u) as (a & Ha & ->);
      [by rewrite HsF|].
    rewrite HsF in Ha.
    destruct (builtF_IndexF_supplied sF firstF restF a EF Ha) as (a0 & Ha0 & <-).
    eauto. }
  split; [exact Hint|]. split; [exact Hflt|]. split.
  - intros Hn raw v Hv. destruct (Hint raw) as [[Hp _]|(a & Ha & Hr)]; [congruence|].
    rewrite Hr in Hv. injection Hv as <-. by apply Hn.
  - intros Hn u v Hv. destruct (Hflt u) as (a & Ha & Hr).
    rewrite Hr in Hv. injection Hv as <-. by apply Hn.
Qed.

(** The theorem at the two evaluated scenarios. *)
Lemma draw_returns_supplied_index_witness :
  (forall u, exists a, a ∈ scenarioF /\
     searchCDFFloat scenarioF_cdf u = Return (IndexF a)) /\
  (forall raw, exists a, a ∈ scenario /\
     searchCDF scenario_cdf raw = Return (Index a)).
Proof.
  pose proof (draw_returns_supplied_index scenario _ _ scenarioF _ _ 3
                BuildCDF_scenario eq_refl BuildCDFFloat_scenarioF eq_refl)
    as (Hint & Hflt & _).
  split; [exact Hflt|].
  intros raw. destruct (Hint raw) as [(_ & lst & El & Hle)|Hr]; [|exact Hr].
  exfalso. vm_compute in El. injection El as <-. cbn in Hle. lia.
Defined.

(** C6 (as the code behaves): the floating-point draw leaves the range
    [[1, total]] whenever the total weight is below 1.  The build of the
    weights 0.25 and 0.25 succeeds with the cumulative weights 0.25 and 0.5;
    for the uniform values 0, 0.25, 0.5, 0.75 and the largest [float64]
    below 1 the drawn numbers are 1, 0.875, 0.75, 0.625 and 0.5, none of
    them in [[1, 0.5]], and 0.75 is not in the range [[1, total + 1)] of
    the code's own comment either; every one of these calls returns index
    1, never index 0.  In general, over any slice whose last weight is not
    at least 1, no call draws a number of [[1, total]].  The integer
    sibling, [Intn(total) + 1], does stay in [[1, total]] for every
    positive [int] total. *)
Theorem float_draw_num_leaves_range_below_one :
  let s := [mkItemFloat 0.25 0; mkItemFloat 0.25 1] in
  let cdf := [mkItemFloat 0.25 0; mkItemFloat 0.5 1] in
  BuildCDFFloat s = Some (mkBuiltF cdf (Some (searchCDFFloat cdf)) None) /\
  draw_numF cdf <$> [0; 0.25; 0.5; 0.75; 0x1.fffffffffffffp-1]%float
    = Some <$> [1; 0.875; 0.75; 0.625; 0.5]%float /\
  (1 <=? 0.75)%float = false /\ (0.75 <=? 0.5)%float = false /\
  (0.75 <? 0.5 + 1)%float = true /\
  searchCDFFloat cdf <$> [0; 0.25; 0.5; 0.75; 0x1.fffffffffffffp-1]%float
    = [Return 1; Return 1; Return 1; Return 1; Return 1] /\
  (forall (sF : WeightedItemsFloat) lst u num,
     at_ sF (len sF - 1) = Some lst -> (1 <=? WeightF lst)%float = false ->
     draw_numF sF u = Some num ->
     num = (u * (WeightF lst - 1) + 1)%float /\
     andb (1 <=? num)%float (num <=? WeightF lst)%float = false) /\
  (forall (si : WeightedItems) lsti raw,
     at_ si (len si - 1) = Some lsti -> 0 < Weight lsti -> is_int (Weight lsti) ->
     exists num, draw_num si raw = Some num /\ 1 <= num <= Weight lsti).
Proof.
  cbn zeta. split.
  { rewrite (BuildCDFFloat_cons _ (mkItemFloat 0.25 0) [mkItemFloat 0.25 1]);
      [reflexivity|vm_compute; reflexivity]. }
  split; [vm_compute; reflexivity|]. split; [vm_compute; reflexivity|].
  split; [vm_compute; reflexivity|]. split; [vm_compute; reflexivity|].
  split; [vm_compute; reflexivity|]. split.
  - intros sF lst u num El Hlst Hd. unfold draw_numF in Hd. rewrite El in Hd.
    injection Hd as <-. split; [reflexivity|].
    destruct (1 <=? u * (WeightF lst - 1) + 1)%float eqn:H1; [|reflexivity].
    destruct (u * (WeightF lst - 1) + 1 <=? WeightF lst)%float eqn:H2; [|reflexivity].
    rewrite leb_spec in H1, H2, Hlst.
    rewrite (SFleb_trans _ _ _ H1 H2) in Hlst. discriminate.
  - intros si lsti raw El Hpos Hint.
    destruct (draw_num_spec si lsti raw El Hpos Hint) as [Hd Hr]. eauto.
Qed.

(** C7: for a successfully built distribution of either variant the
    binary-search loop reaches a [return] for every drawn number, so in
    particular for every number of [[1, total]] over the strictly increasing
    cumulative array: as many rounds as the slice has elements are always
    enough.  A call of the floating-point closure therefore always returns;
    a call of the integer closure returns unless [Intn] panics. *)
Theorem search_loop_reaches_return `{SortAlgorithm} `{SortAlgorithmFloat}
  (s : WeightedItems) b f (sF : WeightedItemsFloat) bF fF :
  BuildCDF s = Some b -> draw b = Some f ->
  BuildCDFFloat sF = Some bF -> drawF bF = Some fF ->
  (forall num fuel, (length (slice b) <= fuel)%nat ->
     exists v, search_loop fuel (slice b) num 0 (len (slice b) - 1) = Return v) /\
  (forall num fuel, (length (sliceF bF) <= fuel)%nat ->
     exists v, search_loopF fuel (sliceF bF) num 0 (len (sliceF bF) - 1) = Return v) /\
  (forall raw, f raw = Panic \/ exists v, f raw = Return v) /\
  (forall u, exists v, fF u = Return v).
Proof.
  intros Hb Hf HbF HfF.
  destruct (BuildCDF_success s b f Hb Hf) as (first & rest & _ & _ & Hs & -> & _).
  destruct (BuildCDFFloat_success sF bF fF HbF HfF)
    as (firstF & restF & _ & _ & HsF & -> & _).
  assert (Hne : slice b <> []) by (by rewrite Hs).
  assert (HneF : sliceF bF <> []) by (by rewrite HsF).
  split; [|split; [|split]].
  - intros num fuel Hfuel.
    destruct (search_loop_returns (slice b) num fuel Hne Hfuel) as (a & _ & ->). eauto.
  - intros num fuel Hfuel.
    destruct (search_loopF_returns (sliceF bF) num fuel HneF Hfuel) as (a & _ & ->).
    eauto.
  - intros raw. destruct (at_last (slice b) Hne) as [lst El].
    pose proof (searchCDF_returns (slice b) raw lst El) as Hr.
    destruct (Weight lst <=? 0); [by left|].
    right. destruct Hr as (a & _ & ->). eauto.
  - intros u. destruct (searchCDFFloat_returns (sliceF bF) u HneF) as (a & _ & ->).
    eauto.
Qed.

(** The theorem at the two evaluated scenarios, with three rounds of fuel. *)
Lemma search_loop_reaches_return_witness :
  (exists v, search_loop 3 scenario_cdf 1 0 2 = Return v) /\
  (exists v, search_loopF 3 scenarioF_cdf 2.5 0 2 = Return v).
Proof.
  pose proof (search_loop_reaches_return scenario _ _ scenarioF _ _
                BuildCDF_scenario eq_refl BuildCDFFloat_scenarioF eq_refl)
    as (Hint & Hflt & _).
  split; [exact (Hint 1 3%nat (le_n 3))|exact (Hflt 2.5%float 3%nat (le_n 3))].
Defined.

(** C8: in the floating-point build the check inside the accumulation loop
    reads [s[0]], not [s[i]]: one round of the loop at [i = 1] over the
    weights 1 and -1 adds the -1 without complaint.  Once [s[0]] has passed
    the check before the loop, no run of the loop (from any [i >= 1], over
    any slice with that first element) returns the error: the branch is
    unreachable.  Whether the build rejects is therefore decided by the
    first element after the sort alone. *)
Theorem float_inloop_check_unreachable `{SortAlgorithmFloat}
  (s : WeightedItemsFloat) first rest :
  sort_SortF s = first :: rest ->
  accumulateF 1 1 [mkItemFloat 1 0; mkItemFloat (-1) 1]
    = Some ([mkItemFloat 1 0; mkItemFloat 0 1], None) /\
  (forall n i s1 s2 e,
     (1 <= i)%nat -> s1 !! 0%nat = Some first ->
     (WeightF first <=? 0)%float = false ->
     accumulateF n i s1 = Some (s2, e) -> e = None) /\
  BuildCDFFloat s = Some
    (if (WeightF first <=? 0)%float
     then mkBuiltF (first :: rest) None (Some zeroWeightErr)
     else mkBuiltF (first :: cumulF first rest)
            (Some (searchCDFFloat (first :: cumulF first rest))) None).
Proof.
  intros E. split; [vm_compute; reflexivity|].
  split; [|by apply BuildCDFFloat_cons].
  intros n i s1 s2 e. apply accumulateF_no_error.
Qed.

(** The theorem at the weights 3.75, 0, 1.375: the sort brings the zero to
    the front and the build rejects. *)
Lemma float_inloop_check_unreachable_witness :
  BuildCDFFloat [mkItemFloat 3.75 0; mkItemFloat 0 1; mkItemFloat 1.375 2]
  = Some (mkBuiltF [mkItemFloat 0 1; mkItemFloat 1.375 2; mkItemFloat 3.75 0]
            None (Some zeroWeightErr)).
Proof.
  exact (proj2 (proj2 (float_inloop_check_unreachable
                  [mkItemFloat 3.75 0; mkItemFloat 0 1; mkItemFloat 1.375 2]
                  (mkItemFloat 0 1) [mkItemFloat 1.375 2; mkItemFloat 3.75 0]
                  eq_refl))).
Defined.

(** C9: when the integer build returns the error for a weight that is not
    positive, the caller's slice is the sorted slice: a rearrangement of the
    items supplied, in ascending order of weight, with no weight replaced by
    a running sum; and no closure is returned. *)
Theorem failed_build_only_reorders `{SortAlgorithm} (s : WeightedItems) b :
  BuildCDF s = Some b -> err b = Some zeroWeightErr ->
  slice b = sort_Sort s /\ slice b ≡ₚ s /\
  StronglySorted weight_le (slice b) /\ draw b = None.
Proof.
  intros Hb He. destruct s as [|a0 s0]; [by injection Hb as <-|].
  destruct (sort_Sort_cons (a0 :: s0) ltac:(done)) as (first & rest & E).
  rewrite (BuildCDF_cons _ _ _ E) in Hb.
  destruct (Weight first <=? 0); injection Hb as <-; [|done].
  cbn [slice draw]. rewrite <- E.
  split; [done|]. split; [apply sort_Sort_perm|]. split; [apply sort_Sort_sorted|done].
Qed.

(** The theorem at the weights 5, 0, 3 of the package's zero-weight test. *)
Lemma failed_build_only_reorders_witness :
  [mkItem 0 1; mkItem 3 2; mkItem 5 0] ≡ₚ [mkItem 5 0; mkItem 0 1; mkItem 3 2] /\
  StronglySorted weight_le [mkItem 0 1; mkItem 3 2; mkItem 5 0].
Proof.
  pose proof (failed_build_only_reorders
                [mkItem 5 0; mkItem 0 1; mkItem 3 2]
                (mkBuilt [mkItem 0 1; mkItem 3 2; mkItem 5 0] None (Some zeroWeightErr))
                eq_refl eq_refl) as (_ & Hp & Hs & _).
  exact (conj Hp Hs).
Defined.

(** C10 as stated fails: the build of [overflowing] succeeds with both
    weights positive, the last cumulative weight has wrapped around to
    -2^63, and the call of the draw closure panics in [Intn]. *)
Lemma overflowed_total_panics_in_Intn :
  forallb (fun a => 0 <? Weight a) overflowing = true /\
  err <$> BuildCDF overflowing = Some None /\
  (fun b => Weight <$> last (slice b)) <$> BuildCDF overflowing
    = Some (Some (- 2 ^ 63)) /\
  Intn (- 2 ^ 63) 0 = None /\
  (fun b => (fun f => f 0) <$> draw b) <$> BuildCDF overflowing
    = Some (Some Panic).
Proof. repeat split; vm_compute; reflexivity. Qed.

(** C10, amended: for every non-empty collection of positive integer
    weights whose total does not exceed the largest [int], the build
    succeeds, the argument of [Intn] is the total weight and is at least 1,
    so [Intn] does not panic; the midpoint of bounds inside the slice is a
    subscript of the slice; and no call of the draw closure panics on an
    array access: every call returns the index field of an element. *)
Theorem draw_in_bounds_without_overflow `{SortAlgorithm} (s : WeightedItems) :
  s <> [] -> Forall (fun a => 0 < Weight a) s ->
  total (Weight <$> s) <= MaxInt ->
  exists s2 lst,
    BuildCDF s = Some (mkBuilt s2 (Some (searchCDF s2)) None) /\
    at_ s2 (len s2 - 1) = Some lst /\
    Weight lst = total (Weight <$> s) /\ 1 <= Weight lst /\
    (forall raw, exists k, Intn (Weight lst) raw = Some k /\ 0 <= k < Weight lst) /\
    (forall left right, 0 <= left <= right -> right <= len s2 - 1 ->
       0 <= (left + right) ÷ 2 <= len s2 - 1 /\
       is_Some (at_ s2 ((left + right) ÷ 2))) /\
    (forall raw, exists a, a ∈ s2 /\ searchCDF s2 raw = Return (Index a)).
Proof.
  intros Hne Hpos Hmax.
  destruct (BuildCDF_no_overflow s Hne Hpos Hmax)
    as (first & rest & E & Hb & Hf & Hr & Htot).
  set (s2 := first :: cumul first rest) in *.
  assert (Hne2 : s2 <> []) by done.
  destruct (at_last s2 Hne2) as [lst El].
  assert (Hw : Weight lst = total (Weight <$> s)).
  { unfold at_ in El. destruct (len s2 - 1 <? 0); [discriminate|].
    replace (Z.to_nat (len s2 - 1)) with (length (cumul first rest)) in El
      by (unfold len, s2; cbn; lia).
    unfold s2 in El. destruct (cumul first rest) as [|c l] eqn:Ec.
    - injection El as <-. destruct rest; [|discriminate Ec].
      rewrite <- Htot. unfold total. cbn. lia.
    - rewrite <- Ec in El. cbn [length lookup list_lookup] in El.
      rewrite Ec in El. cbn [length] in El. rewrite <- Ec in El.
      apply cumul_lookup_weight in El; [|done|done|lia].
      rewrite El, <- Htot. f_equal. f_equal. apply take_ge.
      rewrite length_fmap, <- (cumul_length first rest), Ec. cbn. lia. }
  assert (Hge : 1 <= Weight lst).
  { rewrite Hw, <- Htot. pose proof (total_nonneg rest Hr). lia. }
  exists s2, lst. split; [done|]. split; [done|]. split; [done|]. split; [done|].
  split; [|split].
  - intros raw. unfold Intn. destruct (Z.leb_spec (Weight lst) 0); [lia|].
    eexists. split; [done|]. apply Z.mod_pos_bound. lia.
  - intros left right Hlr Hrs.
    pose proof (midpoint_range left right Hlr) as Hm.
    split; [lia|]. destruct (at_Some s2 ((left + right) ÷ 2)) as [a ->]; [lia|done].
  - intros raw. pose proof (searchCDF_returns s2 raw lst El) as Hret.
    destruct (Z.leb_spec (Weight lst) 0); [lia|done].
Qed.

(** The theorem at the scenario of the specification. *)
Lemma draw_in_bounds_without_overflow_witness :
  exists s2 lst,
    BuildCDF scenario = Some (mkBuilt s2 (Some (searchCDF s2)) None) /\
    at_ s2 (len s2 - 1) = Some lst /\
    Weight lst = total (Weight <$> scenario) /\ 1 <= Weight lst /\
    (forall raw, exists k, Intn (Weight lst) raw = Some k /\ 0 <= k < Weight lst) /\
    (forall left right, 0 <= left <= right -> right <= len s2 - 1 ->
       0 <= (left + right) ÷ 2 <= len s2 - 1 /\
       is_Some (at_ s2 ((left + right) ÷ 2))) /\
    (forall raw, exists a, a ∈ s2 /\ searchCDF s2 raw = Return (Index a)).
Proof.
  apply (draw_in_bounds_without_overflow scenario).
  - discriminate.
  - repeat constructor.
  - vm_compute. discriminate.
Defined.

(** * Further properties of the code *)

(** ** The [sort.Interface] methods *)

Lemma swap_at_lookup {A} (s : list A) i j k :
  (i < length s)%nat -> (j < length s)%nat ->
  swap_at s i j !! k =
    if decide (k = i) then s !! j else if decide (k = j) then s !! i else s !! k.
Proof.
  intros Hi Hj. unfold swap_at.
  destruct (lookup_lt_is_Some_2 s i Hi) as [a Ha].
  destruct (lookup_lt_is_Some_2 s j Hj) as [b Hb].
  rewrite Ha, Hb.
  destruct (decide (k = j)) as [->|Hkj].
  - rewrite list_lookup_insert_eq by (by rewrite length_insert).
    destruct (decide (j = i)) as [->|_]; congruence.
  - rewrite list_lookup_insert_ne by done.
    destruct (decide (k = i)) as [->|Hki].
    + by rewrite list_lookup_insert_eq.
    + by rewrite list_lookup_insert_ne.
Qed.

Lemma swap_at_length {A} (s : list A) i j : length (swap_at s i j) = length s.
Proof.
  unfold swap_at. destruct (s !! i), (s !! j); by rewrite ?length_insert.
Qed.

Lemma swap_at_involutive {A} (s : list A) i j : swap_at (swap_at s i j) i j = s.
Proof.
  destruct (decide (i < length s)%nat) as [Hi|Hi].
  2:{ unfold swap_at at 2. rewrite (lookup_ge_None_2 s i) by lia.
      unfold swap_at. by rewrite (lookup_ge_None_2 s i) by lia. }
  destruct (decide (j < length s)%nat) as [Hj|Hj].
  2:{ unfold swap_at at 2. rewrite (lookup_ge_None_2 s j) by lia.
      destruct (s !! i); unfold swap_at; rewrite (lookup_ge_None_2 s j) by lia;
        by destruct (s !! i). }
  apply list_eq. intros k.
  rewrite swap_at_lookup by (by rewrite swap_at_length).
  rewrite !swap_at_lookup by done.
  repeat case_decide; congruence.
Qed.

Lemma swap_at_perm {A} (s : list A) i j : swap_at s i j ≡ₚ s.
Proof.
  destruct (decide (i < length s)%nat) as [Hi|Hi].
  2:{ unfold swap_at. by rewrite (lookup_ge_None_2 s i) by lia. }
  destruct (decide (j < length s)%nat) as [Hj|Hj].
  2:{ unfold swap_at. rewrite (lookup_ge_None_2 s j) by lia. by destruct (s !! i). }
  apply Permutation_inj. split; [apply swap_at_length|].
  exists (fun k => if decide (k = i) then j else if decide (k = j) then i else k).
  split.
  - intros k1 k2. repeat case_decide; congruence.
  - intros k. rewrite swap_at_lookup by done. by repeat case_decide.
Qed.

(** X1: both [Swap] methods exchange the elements at two subscripts of the
    slice and touch nothing else: afterwards position [i] holds what [j]
    held and the reverse, every other position and the length are as
    before, the slice is a rearrangement of the old one, and swapping the
    same two subscripts again restores it. *)
Theorem Swap_is_transposition (s : WeightedItems) (sF : WeightedItemsFloat)
  (i j : nat) :
  (i < length s)%nat -> (j < length s)%nat ->
  (i < length sF)%nat -> (j < length sF)%nat ->
  (Swap s i j !! i = s !! j /\ Swap s i j !! j = s !! i /\
   (forall k, k <> i -> k <> j -> Swap s i j !! k = s !! k) /\
   Len (Swap s i j) = Len s /\ Swap s i j ≡ₚ s /\ Swap (Swap s i j) i j = s) /\
  (SwapF sF i j !! i = sF !! j /\ SwapF sF i j !! j = sF !! i /\
   (forall k, k <> i -> k <> j -> SwapF sF i j !! k = sF !! k) /\
   LenF (SwapF sF i j) = LenF sF /\ SwapF sF i j ≡ₚ sF /\
   SwapF (SwapF sF i j) i j = sF).
Proof.
  intros Hi Hj HiF HjF. unfold Swap, SwapF, Len, LenF, len. split.
  - split; [rewrite swap_at_lookup by done; by rewrite decide_True|].
    split; [rewrite swap_at_lookup by done; repeat case_decide; congruence|].
    split; [intros k Hki Hkj; rewrite swap_at_lookup by done;
            by rewrite !decide_False|].
    split; [by rewrite swap_at_length|].
    split; [apply swap_at_perm|apply swap_at_involutive].
  - split; [rewrite swap_at_lookup by done; by rewrite decide_True|].
    split; [rewrite swap_at_lookup by done; repeat case_decide; congruence|].
    split; [intros k Hki Hkj; rewrite swap_at_lookup by done;
            by rewrite !decide_False|].
    split; [by rewrite swap_at_length|].
    split; [apply swap_at_perm|apply swap_at_involutive].
Qed.

(** The theorem at subscripts 0 and 2 of the two evaluated scenarios. *)
Lemma Swap_is_transposition_witness :
  Swap scenario 0 2 = [mkItem 5 2; mkItem 2 1; mkItem 1 0] /\
  Swap (Swap scenario 0 2) 0 2 = scenario /\
  SwapF (SwapF scenarioF 0 2) 0 2 = scenarioF.
Proof.
  pose proof (Swap_is_transposition scenario scenarioF 0 2) as Hthm.
  destruct Hthm as ((_ & _ & _ & _ & _ & Hint) & (_ & _ & _ & _ & _ & Hflt));
    [cbn; lia..|].
  split; [reflexivity|]. split; [exact Hint|exact Hflt].
Defined.

(** X2: the integer [Less] is an order of the kind [sort.Sort] asks for.
    It is irreflexive, asymmetric and transitive; and over subscripts of the
    slice, being unordered either way (equal weights) is transitive too. *)
Theorem Less_strict_weak_order (s : WeightedItems) (i j k : nat) :
  Less s i i = false /\
  (Less s i j = true -> Less s j i = false) /\
  (Less s i j = true -> Less s j k = true -> Less s i k = true) /\
  ((i < length s)%nat -> (j < length s)%nat -> (k < length s)%nat ->
   Less s i j = false -> Less s j i = false ->
   Less s j k = false -> Less s k j = false ->
   Less s i k = false /\ Less s k i = false).
Proof.
  unfold Less. split; [|split; [|split]].
  - destruct (s !! i); [apply Z.ltb_irrefl|done].
  - destruct (s !! i), (s !! j); try done.
    intros Hlt%Z.ltb_lt. apply Z.ltb_ge. lia.
  - destruct (s !! i), (s !! j), (s !! k); try done.
    intros H1%Z.ltb_lt H2%Z.ltb_lt. apply Z.ltb_lt. lia.
  - intros Hi Hj Hk.
    destruct (lookup_lt_is_Some_2 s i Hi) as [a ->].
    destruct (lookup_lt_is_Some_2 s j Hj) as [b ->].
    destruct (lookup_lt_is_Some_2 s k Hk) as [c ->].
    intros H1%Z.ltb_ge H2%Z.ltb_ge H3%Z.ltb_ge H4%Z.ltb_ge.
    split; apply Z.ltb_ge; lia.
Qed.

(** ** The verdict of the builds *)

(** X3: the integer build never panics and returns exactly one of a closure
    and an error.  The error is the one for an empty slice exactly when the
    slice is empty, the one for a weight that is not positive exactly when
    some weight is zero or negative, and there is no error exactly when the
    slice is non-empty with all weights positive.  The caller's slice keeps
    its length in every case. *)
Theorem BuildCDF_verdict `{SortAlgorithm} (s : WeightedItems) :
  exists b,
    BuildCDF s = Some b /\
    (err b = Some tooShortErr <-> s = []) /\
    (err b = Some zeroWeightErr <-> Exists (fun a => Weight a <= 0) s) /\
    (err b = None <-> s <> [] /\ Forall (fun a => 0 < Weight a) s) /\
    (draw b = None <-> err b <> None) /\
    length (slice b) = length s.
Proof.
  destruct s as [|a0 s0].
  { eexists. split; [reflexivity|]. cbn.
    split; [done|]. split; [split; [done|by intros Hx%Exists_nil]|].
    split; [split; [done|by intros [Hx _]]|]. done. }
  assert (Hne : a0 :: s0 <> []) by done.
  revert Hne. generalize (a0 :: s0). clear a0 s0. intros s Hne.
  destruct (sort_Sort_cons s Hne) as (first & rest & E).
  assert (Hlen : S (length rest) = length s).
  { rewrite <- (Permutation_length (sort_Sort_perm s)), E. reflexivity. }
  assert (Hleast : forall a, a ∈ s -> Weight first <= Weight a)
    by (intros a; by apply (sort_Sort_first_least s first rest)).
  assert (Hfirst : first ∈ s) by (apply sort_Sort_elem_of; rewrite E; by left).
  eexists. split; [apply (BuildCDF_cons s first rest E)|].
  destruct (Z.leb_spec (Weight first) 0) as [Hle|Hpos]; cbn.
  - split; [split; [done|by intros ->]|].
    split; [split; [intros _; apply Exists_exists; eauto|done]|].
    split; [split; [done|]|done].
    intros [_ Hall]. rewrite Forall_forall in Hall.
    specialize (Hall first Hfirst). lia.
  - rewrite cumul_length.
    split; [split; [done|by intros ->]|].
    split; [split; [done|]|].
    { intros (a & Ha & Hle)%Exists_exists. specialize (Hleast a Ha). lia. }
    split; [split; [intros _|done]|done].
    split; [done|]. apply Forall_forall. intros a Ha. specialize (Hleast a Ha). lia.
Qed.

(** X4: the floating-point build never panics and returns exactly one of a
    closure and an error; the error is the one for an empty slice exactly
    when the slice is empty.  It rejects for a weight only when some
    supplied weight is [<= 0], and it accepts every non-empty slice in which
    no weight is [<= 0].  The index fields of the caller's slice are a
    rearrangement of those supplied, and when an error is returned the
    whole slice is a rearrangement of the one supplied. *)
Theorem BuildCDFFloat_verdict `{SortAlgorithmFloat} (s : WeightedItemsFloat) :
  exists b,
    BuildCDFFloat s = Some b /\
    (errF b = Some tooShortErr <-> s = []) /\
    (errF b = Some zeroWeightErr ->
       exists a, a ∈ s /\ (WeightF a <=? 0)%float = true) /\
    (s <> [] -> (forall a, a ∈ s -> (WeightF a <=? 0)%float = false) ->
       errF b = None) /\
    (drawF b = None <-> errF b <> None) /\
    IndexF <$> sliceF b ≡ₚ IndexF <$> s /\
    (errF b <> None -> sliceF b ≡ₚ s).
Proof.
  destruct s as [|a0 s0].
  { eexists. split; [reflexivity|]. cbn. repeat split; try done. }
  assert (Hne : a0 :: s0 <> []) by done.
  revert Hne. generalize (a0 :: s0). clear a0 s0. intros s Hne.
  destruct (sort_SortF_cons s Hne) as (first & rest & E).
  assert (Hfirst : first ∈ s).
  { rewrite <- (sort_SortF_perm s), E. by left. }
  eexists. split; [apply (BuildCDFFloat_cons s first rest E)|].
  destruct (WeightF first <=? 0)%float eqn:Hle;
    cbn [errF drawF sliceF].
  - split; [split; [done|by intros ->]|].
    split; [intros _; eauto|].
    split; [intros _ Hall; by rewrite (Hall first Hfirst) in Hle|].
    split; [done|].
    rewrite <- E, (sort_SortF_perm s). done.
  - split; [split; [done|by intros ->]|].
    split; [done|]. split; [done|]. split; [done|]. split; [|done].
    rewrite fmap_cons, cumulF_IndexF, <- fmap_cons, <- E.
    by rewrite (sort_SortF_perm s).
Qed.

(** X5: what a successful integer build stores, overflow or not.  The
    closure searches the very slice left to the caller; that slice has the
    index fields of the sorted slice in the same order, its first element is
    the first sorted element, and each later element holds the wrapped sum
    of the element stored before it and the sorted weight at its place. *)
Theorem BuildCDF_recurrence `{SortAlgorithm} (s : WeightedItems) b f :
  BuildCDF s = Some b -> draw b = Some f ->
  f = searchCDF (slice b) /\
  Index <$> slice b = Index <$> sort_Sort s /\
  slice b !! 0%nat = sort_Sort s !! 0%nat /\
  (forall i prev cur,
     slice b !! i = Some prev -> sort_Sort s !! S i = Some cur ->
     slice b !! S i = Some (add_prev cur prev)).
Proof.
  intros Hb Hf.
  destruct (BuildCDF_success s b f Hb Hf) as (first & rest & E & _ & Hs & Hfeq & _).
  rewrite Hs, E. split; [by rewrite <- Hs|].
  split; [by rewrite !fmap_cons, cumul_Index|]. split; [done|].
  clear. revert first. induction rest as [|c rest IH]; intros first i prev cur Hp Hc.
  { by destruct i. }
  destruct i as [|i]; cbn in *.
  - by injection Hp as <-; injection Hc as <-.
  - by apply (IH (add_prev c first) i).
Qed.

(** The theorem at the scenario of the specification: the second entry is
    the first entry plus the second weight. *)
Lemma BuildCDF_recurrence_witness :
  scenario_cdf !! 1%nat = Some (add_prev (mkItem 2 1) (mkItem 1 0)).
Proof.
  pose proof (BuildCDF_recurrence scenario _ _ BuildCDF_scenario eq_refl)
    as (_ & _ & _ & Hrec).
  exact (Hrec 0%nat (mkItem 1 0) (mkItem 2 1) eq_refl eq_refl).
Defined.

(** ** The search, away from the middle *)

Section SkeletonEnds.
Context {A : Type}.
Variables (hit below above atmost : A -> bool) (idx : A -> Z).
Variable s : list A.

(** When no element matches and every element is below [num] without the
    next one being above it, the loop only ever moves [left], and returns
    at the last subscript. *)
Lemma bsearch_all_below fuel : forall left,
  (forall a, a ∈ s -> hit a = false /\ below a = true /\ above a = false) ->
  0 <= left <= len s - 1 -> len s - 1 - left < Z.of_nat fuel ->
  exists lst, at_ s (len s - 1) = Some lst /\
    bsearch hit below above atmost idx fuel s left (len s - 1) = Return (idx lst).
Proof.
  induction fuel as [|fuel IH]; intros left Hall Hl Hf; [lia|].
  cbn [bsearch].
  pose proof (midpoint_range left (len s - 1) ltac:(lia)) as Hm.
  set (m := (left + (len s - 1)) ÷ 2) in *. clearbody m.
  destruct (at_Some s m ltac:(lia)) as [sm Esm]. rewrite Esm.
  destruct (Hall sm (at_elem_of _ _ _ Esm)) as (-> & -> & _).
  destruct (Z.eqb_spec m (len s - 1)) as [->|Hne]; [eauto|].
  destruct (at_Some s (m + 1) ltac:(lia)) as [sn Esn]. rewrite Esn.
  destruct (Hall sn (at_elem_of _ _ _ Esn)) as (_ & _ & ->).
  apply IH; [done|lia..].
Qed.

(** When no element matches and none is below or at most [num], the loop
    only ever moves [right], and returns at subscript 0. *)
Lemma bsearch_all_above fuel : forall right,
  (forall a, a ∈ s -> hit a = false /\ below a = false /\ atmost a = false) ->
  0 <= right <= len s - 1 -> right < Z.of_nat fuel ->
  exists first, at_ s 0 = Some first /\
    bsearch hit below above atmost idx fuel s 0 right = Return (idx first).
Proof.
  induction fuel as [|fuel IH]; intros right Hall Hr Hf; [lia|].
  cbn [bsearch].
  pose proof (midpoint_range 0 right ltac:(lia)) as Hm.
  set (m := (0 + right) ÷ 2) in *. clearbody m.
  destruct (at_Some s m ltac:(lia)) as [sm Esm]. rewrite Esm.
  destruct (Hall sm (at_elem_of _ _ _ Esm)) as (-> & -> & _).
  destruct (Z.eqb_spec m 0) as [->|Hne]; [eauto|].
  destruct (at_Some s (m - 1) ltac:(lia)) as [sp Esp]. rewrite Esp.
  destruct (Hall sp (at_elem_of _ _ _ Esp)) as (_ & _ & ->).
  apply IH; [done|lia..].
Qed.

End SkeletonEnds.

(** On [float64], [x < y] rules out [y < x]. *)
Lemma float_ltb_asym (x y : float) :
  (x <? y)%float = true -> (y <? x)%float = false.
Proof.
  rewrite !ltb_spec. unfold SFltb.
  destruct (Prim2SF x) as [[]|[]| |[] mx ex], (Prim2SF y) as [[]|[]| |[] my ey];
    cbn; try congruence.
  all: rewrite (Z.compare_antisym ey ex);
    destruct (ey ?= ex) eqn:E; cbn; try congruence;
    pose proof (Pos.compare_cont_antisym mx my Eq) as Ha; cbn in Ha;
    rewrite <- Ha;
    destruct (Pos.compare_cont Eq mx my); cbn; congruence.
Qed.

(** X6: a drawn number outside the stored weights, over any slice that is
    not empty, in ascending order or not.  When every stored weight is below
    the number the search returns the index of the last element; when every
    stored weight is above it the search returns the index of the first
    element.  The floating-point search does the same for numbers that are
    further than [EPSILON] from every stored weight. *)
Theorem search_outside_the_weights
  (s : WeightedItems) (sF : WeightedItemsFloat) (num : Z) (numF : float) :
  s <> [] -> sF <> [] ->
  exists first lst firstF lstF,
    at_ s 0 = Some first /\ at_ s (len s - 1) = Some lst /\
    at_ sF 0 = Some firstF /\ at_ sF (len sF - 1) = Some lstF /\
    ((forall a, a ∈ s -> Weight a < num) -> search s num = Return (Index lst)) /\
    ((forall a, a ∈ s -> num < Weight a) -> search s num = Return (Index first)) /\
    ((forall a, a ∈ sF ->
        (abs (WeightF a - numF) <=? EPSILON)%float = false /\
        (WeightF a <? numF)%float = true) ->
     searchF sF numF = Return (IndexF lstF)) /\
    ((forall a, a ∈ sF ->
        (abs (WeightF a - numF) <=? EPSILON)%float = false /\
        (WeightF a <=? numF)%float = false) ->
     searchF sF numF = Return (IndexF firstF)).
Proof.
  intros Hne HneF.
  assert (Hlen : 0 < len s) by (unfold len; destruct s; [done|cbn; lia]).
  assert (HlenF : 0 < len sF) by (unfold len; destruct sF; [done|cbn; lia]).
  destruct (at_Some s 0 ltac:(lia)) as [first E0].
  destruct (at_Some s (len s - 1) ltac:(lia)) as [lst El].
  destruct (at_Some sF 0 ltac:(lia)) as [firstF E0F].
  destruct (at_Some sF (len sF - 1) ltac:(lia)) as [lstF ElF].
  exists first, lst, firstF, lstF.
  split; [done|]. split; [done|]. split; [done|]. split; [done|].
  split; [|split; [|split]].
  - intros Hall. unfold search. rewrite search_loop_bsearch.
    edestruct (bsearch_all_below (fun a => Weight a =? num) (fun a => Weight a <? num)
                 (fun a => Weight a >? num) (fun a => Weight a <=? num) Index s
                 (length s) 0) as (l & El' & ->);
      [|lia|unfold len; lia|congruence].
    intros a Ha%Hall. rewrite Z.gtb_ltb.
    split; [apply Z.eqb_neq|split; [apply Z.ltb_lt|apply Z.ltb_ge]]; lia.
  - intros Hall. unfold search. rewrite search_loop_bsearch.
    edestruct (bsearch_all_above (fun a => Weight a =? num) (fun a => Weight a <? num)
                 (fun a => Weight a >? num) (fun a => Weight a <=? num) Index s
                 (length s) (len s - 1)) as (f & Ef & ->);
      [|lia|unfold len; lia|congruence].
    intros a Ha%Hall.
    split; [apply Z.eqb_neq|split; [apply Z.ltb_ge|apply Z.leb_gt]]; lia.
  - intros Hall. unfold searchF. rewrite search_loopF_bsearch.
    edestruct (bsearch_all_below
                 (fun a => abs (WeightF a - numF) <=? EPSILON)%float
                 (fun a => WeightF a <? numF)%float
                 (fun a => numF <? WeightF a)%float
                 (fun a => WeightF a <=? numF)%float IndexF sF
                 (length sF) 0) as (l & El' & ->);
      [|lia|unfold len; lia|congruence].
    intros a (Hhit & Hlt)%Hall. split; [done|]. split; [done|].
    by apply float_ltb_asym.
  - intros Hall. unfold searchF. rewrite search_loopF_bsearch.
    edestruct (bsearch_all_above
                 (fun a => abs (WeightF a - numF) <=? EPSILON)%float
                 (fun a => WeightF a <? numF)%float
                 (fun a => numF <? WeightF a)%float
                 (fun a => WeightF a <=? numF)%float IndexF sF
                 (length sF) (len sF - 1)) as (f & Ef & ->);
      [|lia|unfold len; lia|congruence].
    intros a (Hhit & Hle)%Hall. split; [done|]. split; [|done].
    destruct (WeightF a <? numF)%float eqn:Hlt; [|done].
    apply float_ltb_leb in Hlt. congruence.
Qed.

(** The theorem at the cumulative arrays of the two scenarios: 9 is above
    1, 3 and 8, and 0 is below them. *)
Lemma search_outside_the_weights_witness :
  search scenario_cdf 9 = Return 2 /\ search scenario_cdf 0 = Return 0.
Proof.
  destruct (search_outside_the_weights scenario_cdf scenarioF_cdf 9 0%float)
    as (first & lst & _ & _ & _ & El & _ & _ & Hhi & _); [done..|].
  destruct (search_outside_the_weights scenario_cdf scenarioF_cdf 0 0%float)
    as (first' & _ & _ & _ & E0 & _ & _ & _ & _ & Hlo & _); [done..|].
  injection El as <-. injection E0 as <-.
  split.
  - apply Hhi. intros a Ha. repeat (apply elem_of_cons in Ha as [->|Ha]; [cbn; lia|]).
    by apply elem_of_nil in Ha.
  - apply Hlo. intros a Ha. repeat (apply elem_of_cons in Ha as [->|Ha]; [cbn; lia|]).
    by apply elem_of_nil in Ha.
Defined.

(** ** Which item a draw selects *)

(** A slice whose last weight is at least [num] has a first position whose
    weight is at least [num]. *)
Lemma first_at_least_exists (s : WeightedItems) num lst :
  last s = Some lst -> num <= Weight lst ->
  exists p ap, first_at_least s num p ap.
Proof.
  induction s as [|x l IH]; intros Hl Hnum; [done|].
  destruct (Z.le_gt_cases num (Weight x)) as [Hx|Hx].
  { exists 0, x. split; [done|]. split; [done|]. intros j a Ha%at_range Hj. lia. }
  destruct l as [|y l']; [injection Hl as <-; lia|].
  destruct (IH Hl Hnum) as (p & ap & Hp & Hap & Hbefore).
  pose proof (at_range _ _ _ Hp) as Hpr.
  exists (p + 1), ap. split; [|split; [done|]].
  - unfold at_ in *. destruct (Z.ltb_spec p 0); [lia|].
    destruct (Z.ltb_spec (p + 1) 0); [lia|].
    by replace (Z.to_nat (p + 1)) with (S (Z.to_nat p)) by lia.
  - intros j a Ha Hj. destruct (Z.eq_dec j 0) as [->|Hj0].
    { injection Ha as <-. lia. }
    pose proof (at_range _ _ _ Ha) as Hjr.
    apply (Hbefore (j - 1)); [|lia].
    unfold at_ in *. destruct (Z.ltb_spec j 0); [lia|].
    destruct (Z.ltb_spec (j - 1) 0); [lia|].
    by replace (Z.to_nat j) with (S (Z.to_nat (j - 1))) in Ha by lia.
Qed.

(** Without overflow the last running sum is the total weight. *)
Lemma cumul_last_total first rest lst :
  Forall (fun a => 0 < Weight a) rest -> 0 < Weight first ->
  Weight first + total (Weight <$> rest) <= MaxInt ->
  last (first :: cumul first rest) = Some lst ->
  Weight lst = Weight first + total (Weight <$> rest).
Proof.
  intros Hr Hf Hmax Hl. rewrite last_lookup in Hl. cbn [length Nat.pred] in Hl.
  destruct (cumul first rest) as [|c l] eqn:Ec.
  - injection Hl as <-. destruct rest; [|discriminate Ec]. unfold total. cbn. lia.
  - rewrite <- Ec in Hl. cbn [length lookup list_lookup] in Hl.
    rewrite Ec in Hl. cbn [length] in Hl. rewrite <- Ec in Hl.
    apply cumul_lookup_weight in Hl; [|done|done|lia].
    rewrite Hl. f_equal. f_equal. apply take_ge.
    rewrite length_fmap, <- (cumul_length first rest), Ec. cbn. lia.
Qed.

Lemma at_last_last {A} (s : list A) : at_ s (len s - 1) = last s.
Proof.
  rewrite last_lookup. unfold at_, len. destruct s as [|x l]; [done|].
  destruct (Z.ltb_spec (Z.of_nat (length (x :: l)) - 1) 0); [cbn in *; lia|].
  f_equal. cbn. lia.
Qed.

(** X7: which item the integer draw selects.  For a non-empty collection of
    positive weights whose total fits [int], a call in which the generator
    produces [raw] draws [num = raw mod total + 1]; the built slice has a
    first position whose cumulative weight is at least [num]; and the call
    returns the index stored there whenever [num] is below that cumulative
    weight.  When [num] equals it, the call returns that index or the index
    stored one position further. *)
Theorem draw_selects_band `{SortAlgorithm} (s : WeightedItems) (raw : Z) :
  s <> [] -> Forall (fun a => 0 < Weight a) s ->
  total (Weight <$> s) <= MaxInt ->
  exists s2 p ap,
    BuildCDF s = Some (mkBuilt s2 (Some (searchCDF s2)) None) /\
    draw_num s2 raw = Some (raw mod total (Weight <$> s) + 1) /\
    first_at_least s2 (raw mod total (Weight <$> s) + 1) p ap /\
    (raw mod total (Weight <$> s) + 1 < Weight ap ->
       searchCDF s2 raw = Return (Index ap)) /\
    (searchCDF s2 raw = Return (Index ap) \/
     (Weight ap = raw mod total (Weight <$> s) + 1 /\
      exists an, at_ s2 (p + 1) = Some an /\ searchCDF s2 raw = Return (Index an))).
Proof.
  intros Hne Hpos Hmax.
  destruct (BuildCDF_no_overflow s Hne Hpos Hmax)
    as (first & rest & E & Hb & Hf & Hr & Htot).
  set (s2 := first :: cumul first rest) in *.
  assert (Hsorted : StronglySorted weight_lt s2) by (apply cumul_sorted; [done..|lia]).
  destruct (at_last s2 ltac:(done)) as [lst El].
  assert (Hw : Weight lst = total (Weight <$> s)).
  { rewrite <- Htot. apply cumul_last_total; [done..|lia|].
    by rewrite <- at_last_last. }
  assert (Hlpos : 0 < Weight lst).
  { rewrite Hw, <- Htot. pose proof (total_nonneg rest Hr). lia. }
  assert (Hint : is_int (Weight lst)).
  { unfold is_int, MinInt, MaxInt, intSize in *. lia. }
  destruct (draw_num_spec s2 lst raw El Hlpos Hint) as [Hd Hrange].
  rewrite Hw in Hd, Hrange.
  set (num := raw mod total (Weight <$> s) + 1) in *.
  destruct (first_at_least_exists s2 num lst) as (p & ap & Hfirst);
    [by rewrite <- at_last_last|lia|].
  exists s2, p, ap. split; [done|]. split; [done|]. split; [done|].
  pose proof Hfirst as (Hp%at_range & _).
  assert (Hband := search_loop_band s2 num p ap (length s2) 0 (len s2 - 1)
                     Hsorted Hfirst ltac:(lia) ltac:(lia) ltac:(unfold len; lia)).
  unfold searchCDF. rewrite Hd. fold (search s2 num) in Hband.
  split; [|exact Hband].
  intros Hlt. destruct Hband as [Hret|[Heq _]]; [exact Hret|lia].
Qed.

(** The theorem at the scenario of the specification, for the generator
    value 4: the drawn number is 5, the first cumulative weight that is at
    least 5 is the 8 at position 2, and index 2 is returned. *)
Lemma draw_selects_band_witness :
  exists s2 p ap,
    BuildCDF scenario = Some (mkBuilt s2 (Some (searchCDF s2)) None) /\
    draw_num s2 4 = Some (4 mod total (Weight <$> scenario) + 1) /\
    first_at_least s2 (4 mod total (Weight <$> scenario) + 1) p ap /\
    (4 mod total (Weight <$> scenario) + 1 < Weight ap ->
       searchCDF s2 4 = Return (Index ap)) /\
    (searchCDF s2 4 = Return (Index ap) \/
     (Weight ap = 4 mod total (Weight <$> scenario) + 1 /\
      exists an, at_ s2 (p + 1) = Some an /\ searchCDF s2 4 = Return (Index an))).
Proof.
  apply (draw_selects_band scenario 4).
  - discriminate.
  - repeat constructor.
  - vm_compute. discriminate.
Defined.

(** ** A weight that is not a number *)

Lemma is_nan_Prim2SF (x : float) : is_nan x = true <-> Prim2SF x = S754_nan.
Proof.
  unfold is_nan. rewrite FloatAxioms.eqb_spec. unfold SFeqb.
  destruct (Prim2SF x) as [[]|[]| |[] m e]; cbn; try (split; congruence).
  all: rewrite Z.compare_refl, Pos.compare_cont_refl; cbn; split; congruence.
Qed.

Lemma add_nan (x y : float) :
  Prim2SF x = S754_nan \/ Prim2SF y = S754_nan -> Prim2SF (x + y) = S754_nan.
Proof.
  rewrite add_spec. unfold SF64add, SFadd.
  intros [->| ->]; [done|]. by destruct (Prim2SF x).
Qed.

Lemma sub_nan (x y : float) :
  Prim2SF x = S754_nan \/ Prim2SF y = S754_nan -> Prim2SF (x - y) = S754_nan.
Proof.
  rewrite sub_spec. unfold SF64sub, SFsub.
  intros [->| ->]; [done|]. by destruct (Prim2SF x).
Qed.

Lemma mul_nan (x y : float) :
  Prim2SF x = S754_nan \/ Prim2SF y = S754_nan -> Prim2SF (x * y) = S754_nan.
Proof.
  rewrite mul_spec. unfold SF64mul, SFmul.
  intros [->| ->]; [done|]. by destruct (Prim2SF x).
Qed.

Lemma leb_nan (x y : float) :
  Prim2SF x = S754_nan \/ Prim2SF y = S754_nan -> (x <=? y)%float = false.
Proof.
  rewrite leb_spec. unfold SFleb, SFcompare.
  intros [->| ->]; [done|]. by destruct (Prim2SF x).
Qed.

(** Once a running sum is not a number, neither is any later one; so a
    weight that is not a number anywhere leaves the last sum not a number. *)
Lemma cumulF_nan_last (l : WeightedItemsFloat) : forall p lst,
  Prim2SF (WeightF p) = S754_nan \/
    (exists a, a ∈ l /\ Prim2SF (WeightF a) = S754_nan) ->
  last (p :: cumulF p l) = Some lst -> Prim2SF (WeightF lst) = S754_nan.
Proof.
  induction l as [|c l IH]; intros p lst Hnan Hl.
  - injection Hl as <-. destruct Hnan as [Hp|(a & Ha & _)]; [done|].
    by apply elem_of_nil in Ha.
  - cbn [cumulF] in Hl. apply (IH (add_prevF c p)); [|exact Hl].
    destruct Hnan as [Hp|(a & Ha & Hnan)].
    + left. apply add_nan. by right.
    + apply elem_of_cons in Ha as [->|Ha]; [|right; eauto].
      left. apply add_nan. by left.
Qed.

(** X8: the floating-point build does not look for weights that are not
    numbers.  When it succeeds on a slice that holds such a weight, the last
    cumulative weight is not a number, so neither is any drawn number, every
    comparison of the search fails, and every call of the draw closure
    returns the same index: that of the first element of the built slice,
    one of the items supplied. *)
Theorem float_nan_weight_fixes_draw `{SortAlgorithmFloat}
  (s : WeightedItemsFloat) b f :
  BuildCDFFloat s = Some b -> drawF b = Some f ->
  (exists a, a ∈ s /\ is_nan (WeightF a) = true) ->
  exists first,
    sliceF b !! 0%nat = Some first /\ first ∈ s /\
    (forall u, draw_numF (sliceF b) u = Some nan) /\
    (forall u, f u = Return (IndexF first)).
Proof.
  intros Hb Hf (a & Ha & Hnan%is_nan_Prim2SF).
  destruct (BuildCDFFloat_success s b f Hb Hf)
    as (first & rest & E & _ & Hs & -> & _).
  exists first. rewrite Hs. split; [done|].
  split; [rewrite <- (sort_SortF_perm s), E; by left|].
  destruct (at_last (first :: cumulF first rest) ltac:(done)) as [lst El].
  assert (Hlst : Prim2SF (WeightF lst) = S754_nan).
  { apply (cumulF_nan_last rest first); [|by rewrite <- at_last_last].
    rewrite <- (sort_SortF_perm s), E in Ha.
    apply elem_of_cons in Ha as [->|Ha]; [by left|right; eauto]. }
  assert (Hnum : forall u, (u * (WeightF lst - 1) + 1)%float = nan).
  { intros u. apply Prim2SF_inj. change (Prim2SF nan) with S754_nan.
    apply add_nan. left. apply mul_nan. right. apply sub_nan. by left. }
  assert (Hd : forall u, draw_numF (first :: cumulF first rest) u = Some nan).
  { intros u. unfold draw_numF. rewrite El. cbn. by rewrite Hnum. }
  split; [exact Hd|].
  intros u. unfold searchCDFFloat. rewrite Hd.
  unfold searchF. rewrite search_loopF_bsearch.
  edestruct (bsearch_all_above
               (fun a => abs (WeightF a - nan) <=? EPSILON)%float
               (fun a => WeightF a <? nan)%float
               (fun a => nan <? WeightF a)%float
               (fun a => WeightF a <=? nan)%float IndexF
               (first :: cumulF first rest)
               (length (first :: cumulF first rest))
               (len (first :: cumulF first rest) - 1)) as (f0 & Ef & ->);
    [|unfold len; cbn; lia|unfold len; lia|by injection Ef as <-].
  intros a0 _.
  assert (Hle : (WeightF a0 <=? nan)%float = false) by (apply leb_nan; by right).
  split; [|split; [|done]].
  - rewrite leb_spec, abs_spec, (sub_nan (WeightF a0) nan); [done|by right].
  - destruct (WeightF a0 <? nan)%float eqn:Hlt; [|done].
    apply float_ltb_leb in Hlt. congruence.
Qed.

(** The theorem at the weights 1 and NaN: the build succeeds, and every
    call returns index 0. *)
Lemma float_nan_weight_fixes_draw_witness :
  exists first,
    [mkItemFloat 1 0; mkItemFloat nan 1] !! 0%nat = Some first /\
    first ∈ [mkItemFloat 1 0; mkItemFloat nan 1] /\
    (forall u, draw_numF [mkItemFloat 1 0; mkItemFloat nan 1] u = Some nan) /\
    (forall u, searchCDFFloat [mkItemFloat 1 0; mkItemFloat nan 1] u
               = Return (IndexF first)).
Proof.
  apply (float_nan_weight_fixes_draw
           [mkItemFloat 1 0; mkItemFloat nan 1]
           (mkBuiltF [mkItemFloat 1 0; mkItemFloat nan 1]
              (Some (searchCDFFloat [mkItemFloat 1 0; mkItemFloat nan 1])) None)).
  - rewrite (BuildCDFFloat_cons _ (mkItemFloat 1 0) [mkItemFloat nan 1]);
      [reflexivity|vm_compute; reflexivity].
  - reflexivity.
  - exists (mkItemFloat nan 1). split; [|reflexivity].
    apply elem_of_cons. right. apply elem_of_cons. by left.
Defined.

(** ** The order in which the items are supplied *)

Lemma cumul_weights (l l' : WeightedItems) : forall p p',
  Weight p = Weight p' -> Weight <$> l = Weight <$> l' ->
  Weight <$> cumul p l = Weight <$> cumul p' l'.
Proof.
  revert l'. induction l as [|c l IH]; intros [|c' l'] p p' Hp Hl; try done.
  injection Hl as Hc Hl. cbn. rewrite Hp, Hc. f_equal.
  apply IH; [|done]. cbn. by rewrite Hp, Hc.
Qed.

(** X9: what the integer build stores does not depend on the order of the
    supplied items, nor on the algorithm that sorts them.  Two builds of
    rearrangements of the same items return the same error, leave the same
    sequence of weights in the caller's slice (overflow or not), and their
    closures draw the same number from the same generator value. *)
Theorem BuildCDF_weights_order_independent (sortA sortB : SortAlgorithm)
  (s s' : WeightedItems) b b' :
  s ≡ₚ s' ->
  @BuildCDF sortA s = Some b -> @BuildCDF sortB s' = Some b' ->
  err b = err b' /\
  Weight <$> slice b = Weight <$> slice b' /\
  (draw b = None <-> draw b' = None) /\
  (forall raw, draw_num (slice b) raw = draw_num (slice b') raw).
Proof.
  intros Hp Hb Hb'.
  assert (Hw : Weight <$> @sort_Sort sortA s = Weight <$> @sort_Sort sortB s').
  { apply (@sort_Sort_weights sortA).
    - rewrite (@sort_Sort_perm sortB s'). by rewrite Hp.
    - apply (StronglySorted_fmap Weight weight_le Z.le); [by intros x y|].
      apply (@sort_Sort_sorted sortB). }
  assert (Hgoal : err b = err b' /\ Weight <$> slice b = Weight <$> slice b' /\
                  (draw b = None <-> draw b' = None)).
  { destruct s as [|a0 s0].
    { apply Permutation_nil in Hp as ->.
      injection Hb as <-. injection Hb' as <-. done. }
    destruct (@sort_Sort_cons sortA (a0 :: s0) ltac:(done)) as (first & rest & E).
    destruct (@sort_Sort_cons sortB s') as (first' & rest' & E').
    { intros ->. by apply Permutation_nil_r in Hp. }
    rewrite E, E' in Hw. injection Hw as Hf Hr.
    change (Weight <$> rest = Weight <$> rest') in Hr.
    rewrite (@BuildCDF_cons sortA _ _ _ E) in Hb.
    rewrite (@BuildCDF_cons sortB _ _ _ E') in Hb'.
    rewrite <- Hf in Hb'.
    destruct (Weight first <=? 0); injection Hb as <-; injection Hb' as <-;
      cbn [err slice draw].
    - by rewrite !fmap_cons, Hf, Hr.
    - split; [done|]. split; [|done].
      rewrite !fmap_cons, Hf. f_equal. by apply cumul_weights. }
  destruct Hgoal as (He & Hws & Hd).
  split; [done|]. split; [done|]. split; [done|].
  intros raw. unfold draw_num.
  assert (Hlast : Weight <$> at_ (slice b) (len (slice b) - 1)
                  = Weight <$> at_ (slice b') (len (slice b') - 1)).
  { rewrite !at_last_last, !last_lookup, <- !list_lookup_fmap.
    rewrite <- (length_fmap Weight (slice b)), <- (length_fmap Weight (slice b')).
    by rewrite Hws. }
  destruct (at_ (slice b) _) as [l1|], (at_ (slice b') _) as [l2|]; try done.
  cbn in *. by injection Hlast as ->.
Qed.

(** The theorem at the scenario of the specification and the same items
    supplied heaviest first. *)
Lemma BuildCDF_weights_order_independent_witness :
  Weight <$> scenario_cdf =
    Weight <$> [mkItem 1 0; mkItem 3 1; mkItem 8 2] /\
  (forall raw, draw_num scenario_cdf raw
               = draw_num [mkItem 1 0; mkItem 3 1; mkItem 8 2] raw).
Proof.
  pose proof (BuildCDF_weights_order_independent
                insertion_sort_algorithm insertion_sort_algorithm
                scenario [mkItem 5 2; mkItem 2 1; mkItem 1 0]
                (mkBuilt scenario_cdf (Some (searchCDF scenario_cdf)) None)
                (mkBuilt [mkItem 1 0; mkItem 3 1; mkItem 8 2]
                   (Some (searchCDF [mkItem 1 0; mkItem 3 1; mkItem 8 2])) None))
    as Hthm.
  destruct Hthm as (_ & Hw & _ & Hd).
  - unfold scenario. apply Permutation_sym.
    etransitivity; [apply Permutation_swap|].
    etransitivity; [apply perm_skip, Permutation_swap|].
    apply Permutation_swap.
  - apply BuildCDF_scenario.
  - rewrite (BuildCDF_cons _ (mkItem 1 0) [mkItem 2 1; mkItem 5 2]);
      [reflexivity|vm_compute; reflexivity].
  - exact (conj Hw Hd).
Defined.

(** ** The package's tests *)

(** While the closure only returns values of [[0, lenw]], the loop of the
    two selection tests never calls [t.Fail()]. *)
Lemma select_loop_passes {R} (call : R -> outcome) (rand : nat -> R) lenw n :
  forall i,
  (forall r, exists v, call r = Return v /\ 0 <= v <= lenw) ->
  select_loop n i (Some call) rand lenw false = Passed.
Proof.
  induction n as [|n IH]; intros i Hcall; [done|].
  cbn [select_loop]. destruct (Hcall (rand i)) as (v & -> & Hv).
  destruct (Z.ltb_spec v 0); [lia|]. destruct (Z.gtb_spec v lenw); [lia|].
  cbn. by apply IH.
Qed.

Lemma buildWeightedArray_scenario : buildWeightedArray = scenario.
Proof. reflexivity. Qed.

Lemma buildWeightedFloatArray_items :
  buildWeightedFloatArray =
    [mkItemFloat 0x1.8p+0 0; mkItemFloat 0x1.2a3d70a3d70a4p+1 1;
     mkItemFloat 0x1.7997f62b6ae7dp+2 2].
Proof. reflexivity. Qed.

(** X10: the five tests of the integer variant pass, whichever algorithm
    sorts and whatever the generator produces in the hundred rounds of
    [TestSelectItemsFrom]. *)
Theorem integer_tests_pass `{SortAlgorithm} :
  TestBuild = Passed /\
  (forall rand, TestSelectItemsFrom rand = Passed) /\
  TestEmpty = Passed /\
  TestZeroWeight = Passed /\
  TestNegativeWeight = Passed.
Proof.
  split; [|split; [|split; [|split]]].
  - unfold TestBuild. by rewrite buildWeightedArray_scenario, BuildCDF_scenario.
  - intros rand. unfold TestSelectItemsFrom.
    rewrite buildWeightedArray_scenario, BuildCDF_scenario. cbn [draw slice err].
    apply select_loop_passes. intros r.
    pose proof (searchCDF_returns scenario_cdf r (mkItem 8 2) eq_refl) as Hret.
    cbn in Hret. destruct Hret as (a & Ha & ->).
    exists (Index a). split; [done|]. unfold len, scenario_cdf in *.
    repeat (apply elem_of_cons in Ha as [->|Ha]; [cbn; lia|]).
    by apply elem_of_nil in Ha.
  - reflexivity.
  - unfold TestZeroWeight.
    destruct (BuildCDF_outcome [mkItem 5 0; mkItem 0 1; mkItem 3 2]) as (_ & _ & ->);
      [done|].
    apply Exists_cons. right. apply Exists_cons. left. cbn. lia.
  - unfold TestNegativeWeight.
    destruct (BuildCDF_outcome [mkItem 5 0; mkItem (-64) 1; mkItem 3 2])
      as (_ & _ & ->); [done|].
    apply Exists_cons. right. apply Exists_cons. left. cbn. lia.
Qed.

(** X11: the tests of the floating-point variant pass.  The two that build
    the weights 1.5, 2.33, 5.8999 pass whichever way [sort.Sort] rearranges
    the slice and whatever the generator produces; the two that expect the
    rejection of a zero and of a negative weight pass with the library's
    insertion sort, which brings that weight to the front. *)
Theorem float_tests_pass `{SortAlgorithmFloat} :
  TestBuildFloat = Passed /\
  (forall rand, TestSelectItemsFromFloat rand = Passed) /\
  TestEmptyFloat = Passed /\
  @TestZeroWeightFloat insertion_sort_algorithm_float = Passed /\
  @TestNegativeWeightFloat insertion_sort_algorithm_float = Passed.
Proof.
  destruct (sort_SortF_cons buildWeightedFloatArray ltac:(done))
    as (first & rest & E).
  assert (Hin : forall a, a ∈ buildWeightedFloatArray ->
            (WeightF a <=? 0)%float = false /\ 0 <= IndexF a <= 3).
  { intros a Ha. rewrite buildWeightedFloatArray_items in Ha.
    repeat (apply elem_of_cons in Ha as [->|Ha];
            [split; [vm_compute; reflexivity|cbn; lia]|]).
    by apply elem_of_nil in Ha. }
  assert (Hfirst : (WeightF first <=? 0)%float = false).
  { apply Hin. rewrite <- (sort_SortF_perm buildWeightedFloatArray), E. by left. }
  assert (Hlen : len (first :: cumulF first rest) = 3).
  { unfold len. cbn [length].
    assert (length (cumulF first rest) = length rest) as ->.
    { rewrite <- (length_fmap IndexF (cumulF first rest)), cumulF_IndexF.
      by rewrite length_fmap. }
    change (S (length rest)) with (length (first :: rest)).
    by rewrite <- E, (Permutation_length (sort_SortF_perm buildWeightedFloatArray)). }
  split; [|split; [|split; [|split]]].
  - unfold TestBuildFloat. rewrite (BuildCDFFloat_cons _ _ _ E), Hfirst. done.
  - intros rand. unfold TestSelectItemsFromFloat.
    rewrite (BuildCDFFloat_cons _ _ _ E), Hfirst. cbn [drawF sliceF errF].
    rewrite Hlen. apply select_loop_passes. intros u.
    destruct (searchCDFFloat_returns (first :: cumulF first rest) u ltac:(done))
      as (a & Ha & ->).
    destruct (builtF_IndexF_supplied _ first rest a E Ha) as (a0 & Ha0 & <-).
    exists (IndexF a0). split; [done|]. by apply Hin.
  - reflexivity.
  - vm_compute. reflexivity.
  - vm_compute. reflexivity.
Qed.

(** ** The order of the floating-point weights *)

Lemma SFltb_trans a b c :
  SFltb a b = true -> SFltb b c = true -> SFltb a c = true.
Proof.
  unfold SFltb, SFcompare.
  destruct a as [[]|[]| |[] ma ea], b as [[]|[]| |[] mb eb], c as [[]|[]| |[] mc ec];
    cbn; try congruence.
  all: change (Pos.compare_cont Eq) with Pos.compare.
  all: destruct (Z.compare_spec ea eb), (Z.compare_spec eb ec), (Z.compare_spec ea ec);
    try congruence; try lia.
  all: destruct (Pos.compare_spec ma mb), (Pos.compare_spec mb mc),
         (Pos.compare_spec ma mc); cbn; try congruence; try lia.
Qed.

Lemma float_ltb_irrefl (x : float) : (x <? x)%float = false.
Proof.
  destruct (x <? x)%float eqn:E; [|done].
  pose proof (float_ltb_asym x x E). congruence.
Qed.

(** X12: the floating-point [Less] is irreflexive, asymmetric and
    transitive, but it is not the kind of order [sort.Sort] needs once a
    weight is not a number: 0 and NaN are unordered, NaN and 1 are
    unordered, and yet 0 is [Less] than 1.  The library's insertion sort
    accordingly leaves the weights 1, NaN, 0 as they are, the 0 behind
    the 1. *)
Theorem LessF_partial_not_weak (s : WeightedItemsFloat) (i j k : nat) :
  LessF s i i = false /\
  (LessF s i j = true -> LessF s j i = false) /\
  (LessF s i j = true -> LessF s j k = true -> LessF s i k = true) /\
  (let t := [mkItemFloat 0 0; mkItemFloat nan 1; mkItemFloat 1 2] in
   LessF t 0 1 = false /\ LessF t 1 0 = false /\
   LessF t 1 2 = false /\ LessF t 2 1 = false /\ LessF t 0 2 = true) /\
  (let t := [mkItemFloat 1 0; mkItemFloat nan 1; mkItemFloat 0 2] in
   insertionSort LessF SwapF t = t).
Proof.
  unfold LessF. split; [|split; [|split; [|split]]].
  - destruct (s !! i); [apply float_ltb_irrefl|done].
  - destruct (s !! i), (s !! j); try done. apply float_ltb_asym.
  - destruct (s !! i), (s !! j), (s !! k); try done.
    rewrite !ltb_spec. apply SFltb_trans.
  - cbn zeta. repeat split; vm_compute; reflexivity.
  - vm_compute. reflexivity.
Qed.

(** ** How often each item is drawn *)

Lemma total_take_S (l : list Z) p w :
  l !! p = Some w -> total (take (S p) l) = total (take p l) + w.
Proof.
  revert p. induction l as [|x l IH]; intros p Hp; [done|].
  destruct p as [|p]; cbn in *.
  - injection Hp as ->. rewrite take_0. unfold total. cbn. lia.
  - specialize (IH p Hp). unfold total in *. cbn in *. lia.
Qed.

Lemma total_take_mono (l : list Z) : forall k k',
  Forall (fun w => 0 < w) l -> (k <= k')%nat ->
  total (take k l) <= total (take k' l).
Proof.
  induction l as [|x l IH]; intros k k' Hpos Hk; [by rewrite !take_nil|].
  apply Forall_cons in Hpos as [Hx Hpos].
  destruct k as [|k], k' as [|k']; try lia; unfold total in *; cbn.
  - assert (H0 := IH 0%nat k' Hpos ltac:(lia)). rewrite take_0 in H0. cbn in H0. lia.
  - specialize (IH k k' Hpos ltac:(lia)). lia.
Qed.

Section Bands.
Variables (first : WeightedItem) (rest : WeightedItems).
Hypothesis rest_positive : Forall (fun a => 0 < Weight a) rest.
Hypothesis first_positive : 0 < Weight first.
Hypothesis no_overflow : Weight first + total (Weight <$> rest) <= MaxInt.
Hypothesis distinct : NoDup (Index <$> first :: rest).

(** Every entry of the built slice is the sum of the sorted weights up to
    its position. *)
Lemma built_lookup_weight p ap :
  (first :: cumul first rest) !! p = Some ap ->
  Weight ap = total (take (S p) (Weight <$> first :: rest)).
Proof.
  intros Hp. destruct p as [|i]; cbn in Hp.
  - injection Hp as <-. cbn. rewrite take_0. unfold total. cbn. lia.
  - apply cumul_lookup_weight in Hp; [|done..]. rewrite Hp. unfold total. cbn. lia.
Qed.

Lemma built_lookup_Index p ap a :
  (first :: cumul first rest) !! p = Some ap -> (first :: rest) !! p = Some a ->
  Index ap = Index a.
Proof.
  intros Hp Ha.
  assert (Hi : (Index <$> first :: cumul first rest) !! p = Some (Index ap))
    by (by rewrite list_lookup_fmap, Hp).
  rewrite fmap_cons, cumul_Index, <- fmap_cons, list_lookup_fmap, Ha in Hi.
  by injection Hi as <-.
Qed.

Lemma built_same_Index p q ap aq :
  (first :: cumul first rest) !! p = Some ap ->
  (first :: cumul first rest) !! q = Some aq ->
  Index ap = Index aq -> p = q.
Proof.
  intros Hp Hq Hi.
  assert (Hnd : NoDup (Index <$> first :: cumul first rest))
    by (by rewrite fmap_cons, cumul_Index, <- fmap_cons).
  apply (NoDup_lookup _ p q (Index ap) Hnd); rewrite list_lookup_fmap.
  - by rewrite Hp.
  - by rewrite Hq, Hi.
Qed.

Lemma weights_positive : Forall (fun w => 0 < w) (Weight <$> first :: rest).
Proof.
  apply Forall_fmap, Forall_cons. split; [done|].
  eapply Forall_impl; [exact rest_positive|done].
Qed.

(** A drawn number within the band of position [p], above the sum before it
    and at most the sum up to it, has [p] as the first position whose
    cumulative weight is at least the number. *)
Lemma band_first_at_least p ap num :
  (first :: cumul first rest) !! p = Some ap ->
  total (take p (Weight <$> first :: rest)) < num
    <= total (take (S p) (Weight <$> first :: rest)) ->
  first_at_least (first :: cumul first rest) num (Z.of_nat p) ap.
Proof.
  intros Hp Hnum. split; [|split].
  - unfold at_. destruct (Z.ltb_spec (Z.of_nat p) 0); [lia|]. by rewrite Nat2Z.id.
  - rewrite (built_lookup_weight p ap Hp). lia.
  - intros j a Ha Hj. pose proof (at_range _ _ _ Ha) as Hjr.
    unfold at_ in Ha. destruct (Z.ltb_spec j 0); [lia|].
    rewrite (built_lookup_weight _ a Ha).
    pose proof (total_take_mono _ (S (Z.to_nat j)) p weights_positive ltac:(lia)).
    lia.
Qed.

(** Generator values below the total draw the number that follows them. *)
Lemma draw_num_small raw :
  0 <= raw < Weight first + total (Weight <$> rest) ->
  draw_num (first :: cumul first rest) raw = Some (raw + 1).
Proof.
  intros Hraw.
  destruct (at_last (first :: cumul first rest) ltac:(done)) as [lst El].
  assert (Hw : Weight lst = Weight first + total (Weight <$> rest)).
  { apply cumul_last_total; [done..|]. by rewrite <- at_last_last. }
  destruct (draw_num_spec _ lst raw El) as [-> _]; [lia| |].
  - unfold is_int, MinInt, MaxInt, intSize in *. lia.
  - rewrite Hw, Z.mod_small by lia. done.
Qed.

(** The item at position [p] of the sorted slice is drawn for every number
    strictly inside its band, and only for numbers of its band or the
    number at the top of the band before. *)
Lemma draw_band_exact p a raw :
  (first :: rest) !! p = Some a ->
  0 <= raw < Weight first + total (Weight <$> rest) ->
  (total (take p (Weight <$> first :: rest)) < raw + 1
     < total (take (S p) (Weight <$> first :: rest)) ->
   searchCDF (first :: cumul first rest) raw = Return (Index a)) /\
  (searchCDF (first :: cumul first rest) raw = Return (Index a) ->
   total (take p (Weight <$> first :: rest)) <= raw + 1
     <= total (take (S p) (Weight <$> first :: rest))).
Proof.
  intros Ha Hraw.
  set (s2 := first :: cumul first rest).
  assert (Hsorted : StronglySorted weight_lt s2) by (by apply cumul_sorted).
  assert (Hlen : length s2 = length (first :: rest))
    by (cbn; by rewrite cumul_length).
  destruct (lookup_lt_is_Some_2 s2 p) as [ap Hp].
  { rewrite Hlen. by eapply lookup_lt_Some. }
  pose proof (built_lookup_Index p ap a Hp Ha) as Hi.
  assert (Hcdf : searchCDF s2 raw = search s2 (raw + 1)).
  { unfold searchCDF, s2. by rewrite (draw_num_small raw Hraw). }
  rewrite Hcdf, <- Hi.
  assert (Hsearch : forall q aq, first_at_least s2 (raw + 1) q aq ->
            search s2 (raw + 1) = Return (Index aq) \/
            (Weight aq = raw + 1 /\ exists an, at_ s2 (q + 1) = Some an /\
               search s2 (raw + 1) = Return (Index an))).
  { intros q aq Hq. pose proof Hq as (Hqr%at_range & _).
    apply (search_loop_band s2 (raw + 1) q aq (length s2) 0 (len s2 - 1));
      [done|done|lia|lia|unfold len; lia]. }
  split.
  - intros Hband.
    destruct (Hsearch _ _ (band_first_at_least p ap (raw + 1) Hp ltac:(lia)))
      as [Hret|[Heq _]]; [done|].
    rewrite (built_lookup_weight p ap Hp) in Heq. lia.
  - intros Hret.
    destruct (at_last s2 ltac:(done)) as [lst El].
    assert (Hw : Weight lst = Weight first + total (Weight <$> rest)).
    { apply cumul_last_total; [done..|]. by rewrite <- at_last_last. }
    destruct (first_at_least_exists s2 (raw + 1) lst) as (q & aq & Hq);
      [by rewrite <- at_last_last|lia|].
    pose proof Hq as (Eq & Hle & Hbefore).
    pose proof (at_range _ _ _ Eq) as Hqr.
    assert (Eq' : s2 !! Z.to_nat q = Some aq).
    { unfold at_ in Eq. by destruct (Z.ltb_spec q 0); [lia|]. }
    pose proof (total_take_mono _ p (S p) weights_positive ltac:(lia)) as Hmono.
    destruct (Hsearch q aq Hq) as [Hr|(Heq & an & En & Hr)];
      rewrite Hr in Hret; injection Hret as Hidx.
    + assert (Z.to_nat q = p) as Hqp by (by apply (built_same_Index _ _ aq ap)).
      rewrite <- Hqp. rewrite (built_lookup_weight _ aq Eq') in Hle.
      split; [|done].
      destruct (Z.to_nat q) as [|q'] eqn:Eqn.
      { rewrite take_0. unfold total. cbn. lia. }
      destruct (lookup_lt_is_Some_2 s2 q') as [a' Ea'].
      { apply lookup_lt_Some in Eq'. lia. }
      assert (Hlt : Weight a' < raw + 1).
      { apply (Hbefore (q - 1)); [|lia]. unfold at_.
        destruct (Z.ltb_spec (q - 1) 0); [lia|].
        by replace (Z.to_nat (q - 1)) with q' by lia. }
      rewrite (built_lookup_weight _ a' Ea') in Hlt. lia.
    + assert (En' : s2 !! S (Z.to_nat q) = Some an).
      { unfold at_ in En. destruct (Z.ltb_spec (q + 1) 0); [lia|].
        by replace (Z.to_nat (q + 1)) with (S (Z.to_nat q)) in En by lia. }
      assert (S (Z.to_nat q) = p) as Hqp by (by apply (built_same_Index _ _ an ap)).
      rewrite (built_lookup_weight _ aq Eq'), Hqp in Heq. lia.
Qed.

End Bands.

(** X13: how often each item is drawn.  For a non-empty collection of
    positive weights with distinct indices whose total fits [int], count
    the generator values of [[0, total)], one for each number that can be
    drawn, for which the closure returns the index of a given item.  That
    count differs from the item's weight by at most one: the exit
    [s[m-1].Weight <= num] can hand the top number of a band to the next
    item, and nothing else is misplaced. *)
Theorem draw_counts_within_one `{SortAlgorithm} (s : WeightedItems) :
  s <> [] -> Forall (fun a => 0 < Weight a) s ->
  total (Weight <$> s) <= MaxInt -> NoDup (Index <$> s) ->
  exists s2,
    BuildCDF s = Some (mkBuilt s2 (Some (searchCDF s2)) None) /\
    forall a, a ∈ s ->
      Weight a - 1
      <= Z.of_nat (length (filter (fun raw => searchCDF s2 raw = Return (Index a))
                             (seqZ 0 (total (Weight <$> s)))))
      <= Weight a + 1.
Proof.
  intros Hne Hpos Hmax Hnd.
  destruct (BuildCDF_no_overflow s Hne Hpos Hmax)
    as (first & rest & E & Hb & Hf & Hr & Htot).
  exists (first :: cumul first rest). split; [done|].
  assert (Hnd' : NoDup (Index <$> first :: rest)).
  { rewrite <- E. by rewrite (sort_Sort_perm s). }
  assert (Hmax' : Weight first + total (Weight <$> rest) <= MaxInt) by lia.
  intros a Ha. apply sort_Sort_elem_of in Ha. rewrite E in Ha.
  apply list_elem_of_lookup in Ha as [p Hp].
  pose proof (fun raw => draw_band_exact first rest Hr Hf Hmax' Hnd' p a raw Hp)
    as Hband.
  set (ws := Weight <$> first :: rest) in *.
  assert (Hwp : ws !! p = Some (Weight a)) by (unfold ws; by rewrite list_lookup_fmap, Hp).
  pose proof (total_take_S ws p (Weight a) Hwp) as HS.
  assert (Hws : Forall (fun w => 0 < w) ws) by (by apply weights_positive).
  pose proof (total_take_mono ws 0 p Hws ltac:(lia)) as Hlo.
  rewrite take_0 in Hlo. change (total []) with 0 in Hlo.
  pose proof (total_take_mono ws (S p) (length ws) Hws
                ltac:(apply lookup_lt_Some in Hwp; lia)) as Hhi.
  rewrite (take_ge ws (length ws)) in Hhi by done.
  assert (Hall : total ws = Weight first + total (Weight <$> rest)) by reflexivity.
  rewrite <- Htot.
  set (T := Weight first + total (Weight <$> rest)) in *.
  set (P := fun raw => searchCDF (first :: cumul first rest) raw = Return (Index a)).
  assert (Hw0 : 0 < Weight a).
  { rewrite Forall_forall in Hws. apply Hws. by eapply list_elem_of_lookup_2. }
  split.
  - assert (Hsub : seqZ (total (take p ws)) (Weight a - 1) ⊆+ filter P (seqZ 0 T)).
    { apply NoDup_submseteq; [apply NoDup_seqZ|].
      intros raw Hraw%elem_of_seqZ. apply list_elem_of_filter.
      assert (0 <= raw < T) as Hrange by (unfold T in *; lia).
      split; [|by apply elem_of_seqZ].
      apply (Hband raw Hrange). lia. }
    apply submseteq_length in Hsub. rewrite length_seqZ in Hsub. lia.
  - assert (Hsub : filter P (seqZ 0 T) ⊆+ seqZ (total (take p ws) - 1) (Weight a + 1)).
    { apply NoDup_submseteq; [apply NoDup_filter, NoDup_seqZ|].
      intros raw (HP & Hraw%elem_of_seqZ)%list_elem_of_filter.
      apply elem_of_seqZ.
      assert (0 <= raw < T) as Hrange by lia.
      pose proof (proj2 (Hband raw Hrange) HP). lia. }
    apply submseteq_length in Hsub. rewrite length_seqZ in Hsub. lia.
Qed.

(** The theorem at the scenario of the specification, where the counts are
    0, 3 and 5 for the weights 1, 2 and 5. *)
Lemma draw_counts_within_one_witness :
  exists s2,
    BuildCDF scenario = Some (mkBuilt s2 (Some (searchCDF s2)) None) /\
    forall a, a ∈ scenario ->
      Weight a - 1
      <= Z.of_nat (length (filter (fun raw => searchCDF s2 raw = Return (Index a))
                             (seqZ 0 (total (Weight <$> scenario)))))
      <= Weight a + 1.
Proof.
  apply (draw_counts_within_one scenario).
  - discriminate.
  - repeat constructor.
  - vm_compute. discriminate.
  - apply (bool_decide_unpack _). vm_compute. reflexivity.
Defined.

(** ** Weights that are not positive, in the floating-point build *)

(** X14: when [sort.Sort] leaves the floating-point slice in ascending
    order, as it does when no weight is NaN, the build rejects every slice
    that holds a weight [<= 0]: it returns the error and no closure, and
    the caller's slice is the sorted slice, no weight replaced by a sum. *)
Theorem float_build_rejects_when_sorted `{SortAlgorithmFloat}
  (s : WeightedItemsFloat) b :
  BuildCDFFloat s = Some b ->
  StronglySorted (fun x y => (WeightF x <=? WeightF y)%float = true) (sort_SortF s) ->
  (exists a, a ∈ s /\ (WeightF a <=? 0)%float = true) ->
  errF b = Some zeroWeightErr /\ drawF b = None /\ sliceF b = sort_SortF s.
Proof.
  intros Hb Hsorted (a & Ha & Hle).
  destruct (sort_SortF_cons s) as (first & rest & E).
  { intros ->. by apply elem_of_nil in Ha. }
  rewrite E in Hsorted. apply StronglySorted_cons in Hsorted as [Hall _].
  assert (Hfirst : (WeightF first <=? 0)%float = true).
  { rewrite <- (sort_SortF_perm s), E in Ha.
    apply elem_of_cons in Ha as [->|Ha]; [done|].
    rewrite Forall_forall in Hall. specialize (Hall a Ha).
    rewrite leb_spec in *. by apply (SFleb_trans _ (Prim2SF (WeightF a))). }
  rewrite (BuildCDFFloat_cons s first rest E), Hfirst in Hb.
  injection Hb as <-. by rewrite E.
Qed.

(** The theorem at the weights 3.75, 0, 1.375, sorted by the library's
    insertion sort. *)
Lemma float_build_rejects_when_sorted_witness :
  errF (mkBuiltF [mkItemFloat 0 1; mkItemFloat 1.375 2; mkItemFloat 3.75 0]
          None (Some zeroWeightErr)) = Some zeroWeightErr /\
  sort_SortF [mkItemFloat 3.75 0; mkItemFloat 0 1; mkItemFloat 1.375 2]
  = [mkItemFloat 0 1; mkItemFloat 1.375 2; mkItemFloat 3.75 0].
Proof.
  destruct (float_build_rejects_when_sorted
              [mkItemFloat 3.75 0; mkItemFloat 0 1; mkItemFloat 1.375 2]
              (mkBuiltF [mkItemFloat 0 1; mkItemFloat 1.375 2; mkItemFloat 3.75 0]
                 None (Some zeroWeightErr))) as (He & _ & Hs).
  - rewrite (BuildCDFFloat_cons _ (mkItemFloat 0 1)
               [mkItemFloat 1.375 2; mkItemFloat 3.75 0]);
      [reflexivity|vm_compute; reflexivity].
  - replace (sort_SortF [mkItemFloat 3.75 0; mkItemFloat 0 1; mkItemFloat 1.375 2])
      with [mkItemFloat 0 1; mkItemFloat 1.375 2; mkItemFloat 3.75 0]
      by (vm_compute; reflexivity).
    repeat constructor.
  - exists (mkItemFloat 0 1). split; [|reflexivity].
    apply elem_of_cons. right. apply elem_of_cons. by left.
  - split; [exact He|]. symmetry. exact Hs.
Defined.

(** ** Overflow of the running sums *)

(** Past the largest [int], a running sum of positive [int]s is negative. *)
Lemma cumul_overflow_negative (l : WeightedItems) : forall p,
  0 < Weight p <= MaxInt ->
  Forall (fun a => 0 < Weight a <= MaxInt) l ->
  MaxInt < Weight p + total (Weight <$> l) ->
  Exists (fun a => Weight a < 0) (cumul p l).
Proof.
  induction l as [|c l IH]; intros p Hp Hl Hover.
  { unfold total in Hover. cbn in Hover. lia. }
  apply Forall_cons in Hl as [Hc Hl]. cbn [cumul].
  destruct (Z.le_gt_cases (Weight c + Weight p) MaxInt) as [Hfit|Hwrap].
  - apply Exists_cons. right. apply IH; [|done|].
    + cbn. rewrite wrap_id; [lia|]. unfold is_int, MinInt, MaxInt, intSize in *. lia.
    + cbn. rewrite wrap_id; [|unfold is_int, MinInt, MaxInt, intSize in *; lia].
      unfold total in *. cbn in Hover. lia.
  - apply Exists_cons. left. cbn. unfold wrap, MaxInt, intSize in *.
    replace (Weight c + Weight p + 2 ^ (64 - 1))
      with (Weight c + Weight p - 2 ^ (64 - 1) + 1 * 2 ^ 64) by lia.
    rewrite Z.mod_add by lia. rewrite Z.mod_small; lia.
Qed.

(** X15: an overflow of the running sums always shows.  For a non-empty
    collection of positive [int] weights the integer build succeeds, and
    the caller's slice holds a negative weight exactly when the total of
    the supplied weights exceeds the largest [int]. *)
Theorem overflow_shows_as_negative_weight `{SortAlgorithm} (s : WeightedItems) :
  s <> [] -> Forall (fun a => 0 < Weight a <= MaxInt) s ->
  exists s2,
    BuildCDF s = Some (mkBuilt s2 (Some (searchCDF s2)) None) /\
    (MaxInt < total (Weight <$> s) <-> Exists (fun a => Weight a < 0) s2).
Proof.
  intros Hne Hint.
  assert (Hpos : Forall (fun a => 0 < Weight a) s).
  { eapply Forall_impl; [exact Hint|]. intros a Ha. cbn in Ha. lia. }
  destruct (sort_Sort_cons s Hne) as (first & rest & E).
  assert (Hint' : Forall (fun a => 0 < Weight a <= MaxInt) (first :: rest)).
  { rewrite <- E. by rewrite (sort_Sort_perm s). }
  apply Forall_cons in Hint' as [Hf Hr].
  assert (Htot : Weight first + total (Weight <$> rest) = total (Weight <$> s)).
  { rewrite <- (total_perm _ _ (fmap_Permutation Weight _ _ (sort_Sort_perm s))), E.
    reflexivity. }
  exists (first :: cumul first rest). split.
  { rewrite (BuildCDF_cons s first rest E).
    destruct (Z.leb_spec (Weight first) 0); [lia|done]. }
  split.
  - intros Hover. apply Exists_cons. right.
    apply cumul_overflow_negative; [done..|lia].
  - intros Hneg. destruct (Z.le_gt_cases (total (Weight <$> s)) MaxInt) as [Hfit|]; [|lia].
    exfalso. apply Exists_exists in Hneg as (a & Ha & Hlt).
    assert (Hr' : Forall (fun a => 0 < Weight a) rest).
    { eapply Forall_impl; [exact Hr|]. intros x Hx. cbn in Hx. lia. }
    apply elem_of_cons in Ha as [->|Ha]; [lia|].
    apply list_elem_of_lookup in Ha as [i Hi].
    pose proof (cumul_lookup_gt rest first i a Hr' ltac:(lia) ltac:(lia) Hi). lia.
Qed.

(** The theorem at two weights of 2^62, whose total 2^63 does not fit. *)
Lemma overflow_shows_as_negative_weight_witness :
  exists s2,
    BuildCDF overflowing = Some (mkBuilt s2 (Some (searchCDF s2)) None) /\
    (MaxInt < total (Weight <$> overflowing) <-> Exists (fun a => Weight a < 0) s2).
Proof.
  apply (overflow_shows_as_negative_weight overflowing).
  - discriminate.
  - repeat constructor; vm_compute; (reflexivity || discriminate).
Defined.

(** ** The library's insertion sort over the package's methods *)

Section SortedByKey.
Context {A : Type}.
Variables (ok : A -> Prop) (le : A -> A -> Prop) (ltb : A -> A -> bool).
Variable less : list A -> nat -> nat -> bool.
Hypothesis less_spec : forall s i j a b,
  s !! i = Some a -> s !! j = Some b -> less s i j = ltb a b.
Hypothesis le_trans : forall a b c, le a b -> le b c -> le a c.
Hypothesis ltb_le : forall a b, ok a -> ok b -> ltb a b = true -> le a b.
Hypothesis nltb_le : forall a b, ok a -> ok b -> ltb a b = false -> le b a.

Lemma sift_sorted_by l1 x l2 :
  Forall ok l1 -> ok x -> StronglySorted le l1 ->
  exists l1', sift less swap_at (length l1) (l1 ++ x :: l2) = l1' ++ l2 /\
              length l1' = S (length l1) /\ StronglySorted le l1' /\
              (forall y, y ∈ l1' -> y = x \/ y ∈ l1).
Proof.
  revert l2. induction l1 as [|y l1 IH] using rev_ind; intros l2 Hok Hx Hs.
  { exists [x]. repeat split; [repeat constructor|].
    intros y Hy. left. by apply list_elem_of_singleton in Hy. }
  apply StronglySorted_app in Hs as (Hle & Hs1 & _).
  apply Forall_app in Hok as [Hok1 Hy%Forall_inv].
  rewrite length_app, Nat.add_1_r. cbn [sift].
  assert (Ex : ((l1 ++ [y]) ++ x :: l2) !! S (length l1) = Some x).
  { apply list_lookup_middle. rewrite length_app. cbn. lia. }
  assert (Ey : ((l1 ++ [y]) ++ x :: l2) !! length l1 = Some y).
  { rewrite <- app_assoc. by apply list_lookup_middle. }
  rewrite (less_spec _ _ _ x y Ex Ey).
  destruct (ltb x y) eqn:Hlt.
  - rewrite <- app_assoc. cbn [app]. rewrite swap_at_adjacent.
    destruct (IH (y :: l2) Hok1 Hx Hs1) as (l1' & E & Hlen & Hs' & Hin).
    rewrite E. exists (l1' ++ [y]).
    rewrite <- app_assoc, length_app, Hlen. cbn [app length].
    split; [done|]. split; [lia|]. split.
    + apply StronglySorted_app_2; [|done|repeat constructor].
      intros a b Ha Hb. apply list_elem_of_singleton in Hb as ->.
      destruct (Hin _ Ha) as [->|Ha']; [by apply ltb_le|].
      apply Hle; [done|]. by apply list_elem_of_singleton.
    + intros a Ha. apply elem_of_app in Ha as [Ha|Ha].
      * destruct (Hin _ Ha) as [->|Ha']; [by left|].
        right. apply elem_of_app. by left.
      * right. apply elem_of_app. by right.
  - exists ((l1 ++ [y]) ++ [x]).
    split; [by rewrite <- !app_assoc|].
    split; [rewrite !length_app; cbn; lia|].
    split.
    2:{ intros a Ha. apply elem_of_app in Ha as [Ha|Ha]; [by right|].
        left. by apply list_elem_of_singleton in Ha. }
    assert (Hyx : le y x) by (by apply nltb_le).
    apply StronglySorted_app_2; [| |repeat constructor].
    + intros a b Ha Hb. apply list_elem_of_singleton in Hb as ->.
      apply elem_of_app in Ha as [Ha|Ha].
      * apply (le_trans a y x); [|done].
        apply Hle; [done|]. by apply list_elem_of_singleton.
      * by apply list_elem_of_singleton in Ha as ->.
    + apply StronglySorted_app_2; [done..|repeat constructor].
Qed.

Lemma insertion_loop_sorted_by l2 : forall l1,
  Forall ok l1 -> Forall ok l2 -> StronglySorted le l1 ->
  StronglySorted le
    (insertion_loop less swap_at (length l2) (length l1) (l1 ++ l2)).
Proof.
  induction l2 as [|x l2 IH]; intros l1 Hok1 Hok2 Hs; cbn [length insertion_loop].
  { by rewrite app_nil_r. }
  apply Forall_cons in Hok2 as [Hx Hok2].
  destruct (sift_sorted_by l1 x l2 Hok1 Hx Hs) as (l1' & E & Hlen & Hs' & Hin).
  rewrite E, <- Hlen. apply IH; [|done..].
  apply Forall_forall. intros a [->|Ha]%Hin; [done|].
  rewrite Forall_forall in Hok1. by apply Hok1.
Qed.

Lemma insertionSort_sorted_by (s : list A) :
  Forall ok s -> StronglySorted le (insertionSort less swap_at s).
Proof.
  intros Hok. unfold insertionSort. destruct s as [|a s]; [constructor|].
  apply Forall_cons in Hok as [Ha Hok].
  replace (length (a :: s) - 1)%nat with (length s) by (cbn; lia).
  apply (insertion_loop_sorted_by s [a]); [by apply Forall_singleton|done|].
  repeat constructor.
Qed.

End SortedByKey.

Lemma SF_nltb_leb a b :
  a <> S754_nan -> b <> S754_nan -> SFltb a b = false -> SFleb b a = true.
Proof.
  unfold SFltb, SFleb, SFcompare.
  destruct a as [[]|[]| |[] ma ea], b as [[]|[]| |[] mb eb];
    cbn; try congruence.
  all: intros _ _; change (Pos.compare_cont Eq) with Pos.compare.
  all: destruct (Z.compare_spec ea eb), (Z.compare_spec eb ea);
    try congruence; try lia.
  all: destruct (Pos.compare_spec ma mb), (Pos.compare_spec mb ma);
    cbn; try congruence; try lia.
Qed.

Lemma is_nan_false_Prim2SF (x : float) : is_nan x = false -> Prim2SF x <> S754_nan.
Proof. intros Hx Hn%is_nan_Prim2SF. congruence. Qed.

(** X16: with the package's [Less] and [Swap], the insertion sort that
    [sort.Sort] runs on short slices leaves the integer slice a
    rearrangement of itself, of the same length, in which no element has a
    smaller weight than an earlier one; the first element then has the
    least weight of all.  It leaves the floating-point slice a
    rearrangement of itself, and in ascending order of weight when no
    weight is NaN. *)
Theorem insertionSort_sorts (s : WeightedItems) (sF : WeightedItemsFloat) :
  insertionSort Less Swap s ≡ₚ s /\
  Len (insertionSort Less Swap s) = Len s /\
  StronglySorted weight_le (insertionSort Less Swap s) /\
  (forall first rest a, insertionSort Less Swap s = first :: rest -> a ∈ s ->
     Weight first <= Weight a) /\
  insertionSort LessF SwapF sF ≡ₚ sF /\
  (Forall (fun a => is_nan (WeightF a) = false) sF ->
   StronglySorted (fun x y => (WeightF x <=? WeightF y)%float = true)
     (insertionSort LessF SwapF sF)).
Proof.
  split; [apply (sort_Sort_perm (SortAlgorithm := insertion_sort_algorithm))|].
  split.
  { unfold Len, len. f_equal. apply Permutation_length.
    apply (sort_Sort_perm (SortAlgorithm := insertion_sort_algorithm)). }
  split; [apply (sort_Sort_sorted (SortAlgorithm := insertion_sort_algorithm))|].
  split.
  { intros first rest a E Ha.
    by apply (sort_Sort_first_least (H := insertion_sort_algorithm) s first rest). }
  split; [apply (insertionSort_perm LessF)|].
  apply (insertionSort_sorted_by (fun a => is_nan (WeightF a) = false)
           (fun x y => (WeightF x <=? WeightF y)%float = true)
           (fun x y => (WeightF x <? WeightF y)%float) LessF).
  - intros t i j a b Ha Hb. unfold LessF. by rewrite Ha, Hb.
  - intros a b c. rewrite !leb_spec. apply SFleb_trans.
  - intros a b _ _. apply float_ltb_leb.
  - intros a b Ha%is_nan_false_Prim2SF Hb%is_nan_false_Prim2SF.
    rewrite ltb_spec, leb_spec. by apply SF_nltb_leb.
Qed.

(** ** What the floating-point build stores *)

(** X17: what a successful floating-point build stores.  The closure
    searches the very slice left to the caller; that slice is as long as
    the one supplied, has the index fields of the sorted slice in the same
    order, its first element is the first sorted element, and each later
    element holds the [float64] sum of the element stored before it and the
    sorted weight at its place. *)
Theorem BuildCDFFloat_recurrence `{SortAlgorithmFloat}
  (s : WeightedItemsFloat) b f :
  BuildCDFFloat s = Some b -> drawF b = Some f ->
  f = searchCDFFloat (sliceF b) /\
  length (sliceF b) = length s /\
  IndexF <$> sliceF b = IndexF <$> sort_SortF s /\
  sliceF b !! 0%nat = sort_SortF s !! 0%nat /\
  (forall i prev cur,
     sliceF b !! i = Some prev -> sort_SortF s !! S i = Some cur ->
     sliceF b !! S i = Some (add_prevF cur prev)).
Proof.
  intros Hb Hf.
  destruct (BuildCDFFloat_success s b f Hb Hf)
    as (first & rest & E & _ & Hs & Hfeq & _).
  rewrite Hs, E. split; [by rewrite <- Hs|].
  split.
  { rewrite <- (Permutation_length (sort_SortF_perm s)), E. cbn. f_equal.
    rewrite <- (length_fmap IndexF (cumulF first rest)), cumulF_IndexF.
    by rewrite length_fmap. }
  split; [by rewrite !fmap_cons, cumulF_IndexF|]. split; [done|].
  clear. revert first. induction rest as [|c rest IH]; intros first i prev cur Hp Hc.
  { by destruct i. }
  destruct i as [|i]; cbn in *.
  - by injection Hp as <-; injection Hc as <-.
  - by apply (IH (add_prevF c first) i).
Qed.

(** The theorem at the floating-point scenario: the second entry is the
    first entry plus the second weight. *)
Lemma BuildCDFFloat_recurrence_witness :
  scenarioF_cdf !! 1%nat = Some (add_prevF (mkItemFloat 2.25 1) (mkItemFloat 1.5 0)).
Proof.
  pose proof (BuildCDFFloat_recurrence scenarioF _ _ BuildCDFFloat_scenarioF eq_refl)
    as (_ & _ & _ & _ & Hrec).
  exact (Hrec 0%nat (mkItemFloat 1.5 0) (mkItemFloat 2.25 1) eq_refl eq_refl).
Defined.
